(** * Flower-selection sketch (sketch.js): the gesture / voice interaction core

    A shallow embedding of the later variant of the sketch (the one that
    defines [velocityYTime] and searches [crtTVNames] in [showResult]):

    - the geometric measures [measureDistance] and [measureVelocity];
    - the per-frame controller [drawUI] (mouth gesture, speech start/stop,
      ten-second give-up, nose-shift browsing);
    - the speech callback [showResult] (tokenising, synonym search,
      selection of the flower to show).

    Modelling conventions.
    - JS strings are [string]s of 8-bit characters and stand for ASCII
      text; [toLowerCase] folds the letters A-Z, which is what JS does on
      ASCII text.  Statements that turn on the letter case of a string say
      that the string is ASCII.
    - JS numbers that carry measurements and [millis()] times are the
      rationals they denote ([Q]).  The arithmetic of the code is the
      arithmetic of doubles: [a - b], [a + b] and [a * b] are the exact
      result rounded to the nearest double, ties to even ([Double.dsub],
      [Double.dadd], [Double.dmul]); comparisons, [abs] and [floor] are
      exact.  Magnitudes stay below 2^1024, so nothing overflows.
      [null > 3] is [false] as in JS (null converts to 0).
    - [crtTVIndex] is an integer or NaN ([x % 0] is NaN in JS); adding 1
      to an index and taking a remainder are exact on such integers.
    - [random(n)] is [rnd * n], as p5 computes it, for the value [rnd] its
      generator delivers, which is supplied with each event.
    - [myRec.start()], [myRec.stop()] and [console.log] are recorded in the
      state, newest first.
    - [showData] is the constant [false] in the sketch, so the drawing code
      guarded by it never runs and is left out; so is the rendering at the
      end of [drawUI], which reads the state and does not change it. *)

From Stdlib Require Import List String Ascii Bool Arith ZArith NArith QArith Qround Qabs Qpower Qreduction Lia Lqa.
Import ListNotations.

Local Close Scope Q_scope.
Local Open Scope string_scope.

(* ================================================================== *)
(** ** Strings: lower-casing and the two uses of [split] *)

Module Str.

(** [String.prototype.toLowerCase] on ASCII text: the letters A-Z go to
    a-z and every other character stays.  (On other text JS also folds
    letters beyond A-Z, and may change the length; such strings are outside
    the model.) *)
Definition lowerChar (c : ascii) : ascii :=
  let n := N_of_ascii c in
  if ((65 <=? n) && (n <=? 90))%N then ascii_of_N (n + 32) else c.

Fixpoint toLowerCase (s : string) : string :=
  match s with
  | EmptyString => EmptyString
  | String c s' => String (lowerChar c) (toLowerCase s')
  end.

(** The character class of the regular expression
    [/[ +\-_`'\.\?!]+/]: inside the brackets [+] is an ordinary character. *)
Definition separators : list ascii :=
  [" "; "+"; "-"; "_"; "`"; "'"; "."; "?"; "!"]%char.

Definition isSeparator (c : ascii) : bool :=
  existsb (Ascii.eqb c) separators.

(** [s.split(re)] for [re = /[class]+/], the class given by [sep].
    A maximal run of class characters is one separator; a run at the very
    start or end of [s] leaves an empty string at that end of the result;
    the empty input gives [[""]].  [inRun] tells that the character before
    the current one belonged to a separator run. *)
Fixpoint splitRuns (sep : ascii -> bool) (inRun : bool) (s : string)
  : list string :=
  match s with
  | EmptyString => [EmptyString]
  | String c s' =>
      if sep c then
        if inRun then splitRuns sep true s'
        else EmptyString :: splitRuns sep true s'
      else
        match splitRuns sep false s' with
        | t :: ts => String c t :: ts
        | [] => [String c EmptyString]
        end
  end.

(** [resultString.split(/[ +\-_`'\.\?!]+/)] *)
Definition splitWords (s : string) : list string :=
  splitRuns isSeparator false s.

(** [nameEntry.split(" ")]: every single space separates, so two spaces
    in a row enclose an empty part, and [""] gives [[""]]. *)
Fixpoint splitSpace (s : string) : list string :=
  match s with
  | EmptyString => [EmptyString]
  | String c s' =>
      if Ascii.eqb c " " then EmptyString :: splitSpace s'
      else
        match splitSpace s' with
        | t :: ts => String c t :: ts
        | [] => [String c EmptyString]
        end
  end.

End Str.

(* ================================================================== *)
(** ** The synonym search of [showResult] *)

Module Matcher.
Import Str.

(** [words[k].toLowerCase() === part.toLowerCase()] *)
Definition partMatches (word part : string) : bool :=
  String.eqb (toLowerCase word) (toLowerCase part).

(** The loop [for (let k = wordIndex; k < words.length; k++)]: [ws] is
    [words] from index [k] on; the result is the first [k] whose word
    matches [part] ([partFound]), or [None]. *)
Fixpoint findPart (part : string) (ws : list string) (k : nat) : option nat :=
  match ws with
  | [] => None
  | w :: ws' => if partMatches w part then Some k else findPart part ws' (S k)
  end.

(** The loop [for (let part of nameParts)] started with the given
    [wordIndex]; the result is [allPartsFound]. *)
Fixpoint allPartsFrom (words : list string) (nameParts : list string)
         (wordIndex : nat) : bool :=
  match nameParts with
  | [] => true
  | part :: rest =>
      match findPart part (skipn wordIndex words) wordIndex with
      | Some k => allPartsFrom words rest (k + 1)
      | None => false
      end
  end.

Definition allPartsFound (words : list string) (nameEntry : string) : bool :=
  allPartsFrom words (splitSpace nameEntry) 0.

(** The loop over [j]: the first synonym of one entry that matches. *)
Fixpoint firstSynonym (words : list string) (names : list string)
  : option string :=
  match names with
  | [] => None
  | nameEntry :: rest =>
      if allPartsFound words nameEntry then Some nameEntry
      else firstSynonym words rest
  end.

(** The loop over [i], entered at index [i] with [entries] the rest of
    [crtTVNames]: the entry index and the synonym that is logged. *)
Fixpoint searchFrom (words : list string) (entries : list (list string))
         (i : nat) : option (nat * string) :=
  match entries with
  | [] => None
  | names :: rest =>
      match firstSynonym words names with
      | Some nameEntry => Some (i, nameEntry)
      | None => searchFrom words rest (S i)
      end
  end.

Definition search (words : list string) (crtTVNames : list (list string))
  : option (nat * string) :=
  searchFrom words crtTVNames 0.

(** [foundIndex] after the two loops; [-1] when nothing matched. *)
Definition foundIndex (words : list string) (crtTVNames : list (list string))
  : Z :=
  match search words crtTVNames with
  | Some (i, _) => Z.of_nat i
  | None => (-1)%Z
  end.

(** The catalogue filled in by [preload]. *)
Definition crtTVNames : list (list string) :=
  [ ["daffodil"; "narcissus"; "jonquil"];
    ["daisy"; "ox-eye"; "bellis"];
    ["forget me not"; "myosotis"; "mouse ear"];
    ["hibiscus"; "rose of sharon"; "rosemallow"];
    ["iris"; "flag iris"; "sword lily"];
    ["jasmine"; "jessamine"; "carolina jasmine"];
    ["lavender"; "lavandula"; "purple sage"];
    ["lily of the valley"; "convallaria"; "may lily"];
    ["lotus"; "water lily"; "sacred lotus"];
    ["morning glory"; "ipomoea"; "bindweed"];
    ["orchid"; "orchidaceae"; "phalaenopsis"];
    ["peony"; "paeonia"; "pioney"];
    ["poppy"; "papaver"; "corn poppy"];
    ["rose"; "rosa"; "queen of flowers"];
    ["sunflower"; "helianthus"; "sun disk"];
    ["tulip"; "tulipa"; "lady tulip"];
    ["violet"; "viola"; "sweet violet"];
    ["wisteria"; "wistaria"; "glycine"] ].

End Matcher.

(* ================================================================== *)
(** ** Geometric measures *)

Module Geometry.

(** Outcome of a JS computation that may throw: reading a property of
    [null] throws a [TypeError]. *)
Inductive result (A : Type) : Type :=
| Ok (a : A)
| TypeError.
Arguments Ok {A} a.
Arguments TypeError {A}.

Definition bind {A B : Type} (m : result A) (k : A -> result B) : result B :=
  match m with
  | Ok a => k a
  | TypeError => TypeError
  end.

Notation "x <- m ;; k" := (bind m (fun x => k))
  (at level 61, m at next level, right associativity).

Section Measures.

(** The JS number type and the arithmetic the measures use. *)
Variable num : Type.
Variable zero : num.
Variables sub add mul : num -> num -> num.
Variable sqrt : num -> num.

Record Point : Type := mkPoint { px : num; py : num }.

(** A point variable holds [null] or a mapped keypoint object. *)
Definition jsPoint : Type := option Point.

Record Velocity : Type := mkVelocity { vx : num; vy : num; speed : num }.

(** [!point] *)
Definition isFalsy (p : jsPoint) : bool :=
  match p with
  | None => true
  | Some _ => false
  end.

(** [point.x] and [point.y] *)
Definition getX (p : jsPoint) : result num :=
  match p with
  | Some q => Ok (px q)
  | None => TypeError
  end.

Definition getY (p : jsPoint) : result num :=
  match p with
  | Some q => Ok (py q)
  | None => TypeError
  end.

Definition measureDistance (point1 point2 : jsPoint) : result (option num) :=
  if isFalsy point1 || isFalsy point2 then Ok None
  else
    x2 <- getX point2 ;;
    x1 <- getX point1 ;;
    let dx := sub x2 x1 in
    y2 <- getY point2 ;;
    y1 <- getY point1 ;;
    let dy := sub y2 y1 in
    let distance := sqrt (add (mul dx dx) (mul dy dy)) in
    Ok (Some distance).

Definition measureVelocity (currentPoint previousPoint : jsPoint)
  : result Velocity :=
  if isFalsy currentPoint || isFalsy previousPoint then
    Ok {| vx := zero; vy := zero; speed := zero |}
  else
    cx <- getX currentPoint ;;
    ox <- getX previousPoint ;;
    let vx := sub cx ox in
    cy <- getY currentPoint ;;
    oy <- getY previousPoint ;;
    let vy := sub cy oy in
    let speed := sqrt (add (mul vx vx) (mul vy vy)) in
    Ok {| vx := vx; vy := vy; speed := speed |}.

End Measures.

Arguments mkPoint {num} px py.
Arguments mkVelocity {num} vx vy speed.

End Geometry.

(* ================================================================== *)
(** ** Double arithmetic *)

(** The numbers of the sketch are IEEE 754 doubles.  A finite double is a
    rational; an operation returns the double nearest to the exact result,
    ties going to the even significand.  Subnormal results are covered;
    overflow is not. *)
Module Double.

Local Open Scope Q_scope.

(** 2^e *)
Definition pow2 (e : Z) : Q := Qpower 2 e.

(** floor(log2 x), for x > 0. *)
Definition binade (x : Q) : Z :=
  if Qle_bool 1 x then Z.log2 (Qfloor x)
  else (- Z.log2_up (Qceiling (/ x)))%Z.

(** The nearest integer, a tie going to the even one. *)
Definition nearestEven (y : Q) : Z :=
  let f := Qfloor y in
  match Qcompare (y - inject_Z f) (1 # 2) with
  | Lt => f
  | Gt => (f + 1)%Z
  | Eq => if Z.even f then f else (f + 1)%Z
  end.

(** The exponent of the last place of the doubles around [x]: 52 below
    the binade of [x], and never below that of the subnormal numbers. *)
Definition ulpExponent (x : Q) : Z := Z.max (binade (Qabs x) - 52) (-1074).

Definition roundReduced (x : Q) : Q :=
  if Qeq_bool x 0 then 0
  else
    let e := ulpExponent x in
    inject_Z (nearestEven (x / pow2 e)) * pow2 e.

(** The double nearest to [x]. *)
Definition roundDouble (x : Q) : Q := Qred (roundReduced (Qred x)).

(** [x] is the value of a double. *)
Definition isDouble (x : Q) : Prop := roundDouble x == x.

(** [a - b], [a + b] and [a * b] on doubles. *)
Definition dsub (a b : Q) : Q := roundDouble (a - b).
Definition dadd (a b : Q) : Q := roundDouble (a + b).
Definition dmul (a b : Q) : Q := roundDouble (a * b).

Arguments roundDouble : simpl never.
Arguments dsub : simpl never.
Arguments dadd : simpl never.
Arguments dmul : simpl never.

Local Close Scope Q_scope.

End Double.

(* ================================================================== *)
(** ** The controller: [drawUI] and [showResult] *)

Module Controller.
Import Str Matcher Double.

Local Open Scope Q_scope.

(** The text panels; [pgUnset] is the value of [pg] before its first
    assignment. *)
Inductive Graphic : Type :=
| pgUnset | pgClosed | pgOpen | pgStarting | pgShowFace | pgMissHear.

Definition Graphic_eqb (a b : Graphic) : bool :=
  match a, b with
  | pgUnset, pgUnset | pgClosed, pgClosed | pgOpen, pgOpen
  | pgStarting, pgStarting | pgShowFace, pgShowFace
  | pgMissHear, pgMissHear => true
  | _, _ => false
  end.

(** Calls made on the speech recogniser [myRec]. *)
Inductive RecCall : Type := RecStart | RecStop.

(** An integer-valued JS number, or NaN. *)
Inductive jsint : Type :=
| Int (z : Z)
| NaN.

Definition jsAdd (a : jsint) (b : Z) : jsint :=
  match a with
  | Int z => Int (z + b)
  | NaN => NaN
  end.

(** [a % b]: the sign follows the dividend; [a % 0] is NaN. *)
Definition jsRem (a : jsint) (b : Z) : jsint :=
  match a with
  | Int z => if (b =? 0)%Z then NaN else Int (Z.rem z b)
  | NaN => NaN
  end.

(** [floor(random(n))], [random(n)] being the double product [rnd * n]. *)
Definition randomIndex (rnd : Q) (n : Z) : jsint :=
  Int (Qfloor (dmul rnd (inject_Z n))).

(** Lines written by [console.log]. *)
Inductive LogEvent : Type :=
| LogResultString (s : string)
| LogWords (ws : list string)
| LogFoundMatch (nameEntry : string) (i : nat)
| LogDisplaying (i : jsint)
| LogNoMatch
| LogDisplayingRandom (i : jsint).

(** The globals the controller reads and writes. *)
Record State : Type := mkState {
  pg : Graphic;
  mouthOpen : bool;
  mouthClose : bool;
  mouthOpenTime : Q;
  mouthCloseTime : Q;
  velocityYTime : Q;
  crtTVIndex : jsint;
  recCalls : list RecCall;
  console : list LogEvent
}.

Definition initialState : State :=
  {| pg := pgUnset; mouthOpen := false; mouthClose := false;
     mouthOpenTime := 0; mouthCloseTime := 0; velocityYTime := 0;
     crtTVIndex := Int 0; recCalls := []; console := [] |}.

Definition set_pg (v : Graphic) (s : State) : State :=
  mkState v (mouthOpen s) (mouthClose s) (mouthOpenTime s) (mouthCloseTime s)
          (velocityYTime s) (crtTVIndex s) (recCalls s) (console s).
Definition set_mouthOpen (v : bool) (s : State) : State :=
  mkState (pg s) v (mouthClose s) (mouthOpenTime s) (mouthCloseTime s)
          (velocityYTime s) (crtTVIndex s) (recCalls s) (console s).
Definition set_mouthClose (v : bool) (s : State) : State :=
  mkState (pg s) (mouthOpen s) v (mouthOpenTime s) (mouthCloseTime s)
          (velocityYTime s) (crtTVIndex s) (recCalls s) (console s).
Definition set_mouthOpenTime (v : Q) (s : State) : State :=
  mkState (pg s) (mouthOpen s) (mouthClose s) v (mouthCloseTime s)
          (velocityYTime s) (crtTVIndex s) (recCalls s) (console s).
Definition set_mouthCloseTime (v : Q) (s : State) : State :=
  mkState (pg s) (mouthOpen s) (mouthClose s) (mouthOpenTime s) v
          (velocityYTime s) (crtTVIndex s) (recCalls s) (console s).
Definition set_velocityYTime (v : Q) (s : State) : State :=
  mkState (pg s) (mouthOpen s) (mouthClose s) (mouthOpenTime s)
          (mouthCloseTime s) v (crtTVIndex s) (recCalls s) (console s).
Definition set_crtTVIndex (v : jsint) (s : State) : State :=
  mkState (pg s) (mouthOpen s) (mouthClose s) (mouthOpenTime s)
          (mouthCloseTime s) (velocityYTime s) v (recCalls s) (console s).
Definition callRec (c : RecCall) (s : State) : State :=
  mkState (pg s) (mouthOpen s) (mouthClose s) (mouthOpenTime s)
          (mouthCloseTime s) (velocityYTime s) (crtTVIndex s)
          (c :: recCalls s) (console s).
Definition log (e : LogEvent) (s : State) : State :=
  mkState (pg s) (mouthOpen s) (mouthClose s) (mouthOpenTime s)
          (mouthCloseTime s) (velocityYTime s) (crtTVIndex s)
          (recCalls s) (e :: console s).

(** [a > b] on numbers. *)
Definition gt (a b : Q) : bool := negb (Qle_bool a b).

(** [distance3_4 > 3], where [distance3_4] may be [null]. *)
Definition distanceAbove (d : option Q) (threshold : Q) : bool :=
  match d with
  | Some q => gt q threshold
  | None => gt 0 threshold
  end.

(** What one call of [drawUI] reads from outside the controller: the
    camera and detector status, [millis()], the globals [distance3_4] and
    [velocity5.y] as [draw] left them, and [rnd], the value in [0, 1) that
    the generator behind [random] delivers next. *)
Record Frame : Type := mkFrame {
  camReady : bool;
  facesLength : nat;
  nowTime : Q;
  distance3_4 : option Q;
  velocity5y : Q;
  rnd : Q
}.

(** What one call of [showResult] reads: the recogniser's result, and
    [millis()] and the generator's next value. *)
Record Speech : Type := mkSpeech {
  resultValue : bool;
  resultString : string;
  speechTime : Q;
  speechRnd : Q
}.

Section WithCatalogue.

(** [crtTVNames] and [crtTVImages.length]. *)
Variable names : list (list string).
Variable imagesLength : Z.

(** First block of the tracked branch of [drawUI]: the mouth gesture
    ([if (distance3_4 > 3) ... else ...]). *)
Definition gestureBlock (f : Frame) (s : State) : State :=
  let nowTime := nowTime f in
  if distanceAbove (distance3_4 f) 3 then
    let s :=
      if negb (mouthOpen s) && gt (dsub nowTime (mouthCloseTime s)) 500 then
        let s := callRec RecStart s in
        let s := set_pg pgOpen s in
        let s := set_mouthOpen true s in
        set_mouthOpenTime nowTime s
      else s in
    if mouthClose s && gt (dsub nowTime (mouthCloseTime s)) 500 then
      set_mouthClose false s
    else s
  else
    let s :=
      if negb (mouthOpen s) && negb (mouthClose s) then set_pg pgClosed s
      else s in
    let s := set_mouthClose true s in
    let s := set_mouthCloseTime nowTime s in
    if mouthOpen s && gt (dsub nowTime (mouthOpenTime s)) 10000 then
      let s := callRec RecStop s in
      let s := set_pg pgMissHear s in
      let s := set_mouthOpen false s in
      let s := log LogNoMatch s in
      let s := set_crtTVIndex (randomIndex (rnd f) imagesLength) s in
      log (LogDisplayingRandom (crtTVIndex s)) s
    else s.

(** Second block: the text panel is brought back to the gesture state
    ([if (pg === pgShowFace || ...)]). *)
Definition panelBlock (f : Frame) (s : State) : State :=
  if Graphic_eqb (pg s) pgShowFace
     || (Graphic_eqb (pg s) pgMissHear
         && gt (dsub (nowTime f) (mouthOpenTime s)) 10000)
  then if mouthOpen s then set_pg pgOpen s else set_pg pgClosed s
  else s.

(** Third block: browsing by a vertical move of the nose
    ([if (!mouthOpen && abs(velocity5.y) > 10 && ...)]). *)
Definition shiftBlock (f : Frame) (s : State) : State :=
  if negb (mouthOpen s) && gt (Qabs (velocity5y f)) 10
     && gt (dsub (nowTime f) (velocityYTime s)) 500 then
    let s := set_velocityYTime (nowTime f) s in
    if gt (velocity5y f) 0 then
      set_crtTVIndex (jsRem (jsAdd (crtTVIndex s) 1) imagesLength) s
    else
      set_crtTVIndex
        (jsRem (jsAdd (jsAdd (crtTVIndex s) (-1)) imagesLength)
               imagesLength) s
  else s.

Definition drawUI (f : Frame) (s : State) : State :=
  if negb (camReady f) then set_pg pgStarting s
  else if (facesLength f =? 0)%nat then set_pg pgShowFace s
  else shiftBlock f (panelBlock f (gestureBlock f s)).

Definition showResult (r : Speech) (s : State) : State :=
  if resultValue r then
    let s := log (LogResultString (resultString r)) s in
    let words := splitWords (resultString r) in
    let s := log (LogWords words) s in
    let s :=
      match search words names with
      | Some (i, nameEntry) => log (LogFoundMatch nameEntry i) s
      | None => s
      end in
    let foundIndex := foundIndex words names in
    let s := set_mouthOpen false s in
    let s := set_mouthClose true s in
    let s := set_mouthCloseTime (speechTime r) s in
    if negb (foundIndex =? -1)%Z then
      let s := set_pg pgClosed s in
      let s := set_crtTVIndex (Int foundIndex) s in
      log (LogDisplaying (crtTVIndex s)) s
    else
      let s := set_pg pgMissHear s in
      let s := log LogNoMatch s in
      let s := set_crtTVIndex (randomIndex (speechRnd r) imagesLength) s in
      log (LogDisplayingRandom (crtTVIndex s)) s
  else s.

(** The two callbacks the browser runs, one at a time. *)
Inductive Event : Type :=
| Tick (f : Frame)
| Heard (r : Speech).

Definition step (s : State) (e : Event) : State :=
  match e with
  | Tick f => drawUI f s
  | Heard r => showResult r s
  end.

Definition run (s : State) (es : list Event) : State :=
  fold_left step es s.

(** Gesture transitions: the flag [mouthOpen] going from [false] to
    [true] across one event, and back. *)
Definition opens (s s' : State) : bool := negb (mouthOpen s) && mouthOpen s'.
Definition closes (s s' : State) : bool := mouthOpen s && negb (mouthOpen s').

Fixpoint openings (s : State) (es : list Event) : nat :=
  match es with
  | [] => 0
  | e :: rest =>
      (if opens s (step s e) then 1 else 0) + openings (step s e) rest
  end.

Fixpoint closings (s : State) (es : list Event) : nat :=
  match es with
  | [] => 0
  | e :: rest =>
      (if closes s (step s e) then 1 else 0) + closings (step s e) rest
  end.

End WithCatalogue.

Definition isStart (c : RecCall) : bool :=
  match c with RecStart => true | RecStop => false end.
Definition isStop (c : RecCall) : bool :=
  match c with RecStop => true | RecStart => false end.

(** Number of [myRec.start()] and of [myRec.stop()] calls made so far. *)
Definition starts (s : State) : nat := List.length (filter isStart (recCalls s)).
Definition stops (s : State) : nat := List.length (filter isStop (recCalls s)).

(** The two states agree on the gesture flags, their time stamps and the
    recogniser calls. *)
Definition sameGesture (s s' : State) : Prop :=
  mouthOpen s' = mouthOpen s /\ mouthClose s' = mouthClose s
  /\ mouthOpenTime s' = mouthOpenTime s
  /\ mouthCloseTime s' = mouthCloseTime s
  /\ recCalls s' = recCalls s.

(** A frame on which the camera is ready and a face is detected, so that
    [drawUI] reaches the gesture logic. *)
Definition tracked (f : Frame) : Prop :=
  camReady f = true /\ facesLength f <> 0%nat.

(** The condition under which a frame opens the gesture, and the one
    under which it gives up. *)
Definition opensOn (f : Frame) (s : State) : Prop :=
  tracked f /\ mouthOpen s = false
  /\ distanceAbove (distance3_4 f) 3 = true
  /\ 500 < dsub (nowTime f) (mouthCloseTime s).

Definition timesOutOn (f : Frame) (s : State) : Prop :=
  tracked f /\ mouthOpen s = true
  /\ distanceAbove (distance3_4 f) 3 = false
  /\ 10000 < dsub (nowTime f) (mouthOpenTime s).

(** A tracked frame at time [t] with mouth gap [d], the nose at rest. *)
Definition mouthFrame (t d : Q) : Frame :=
  {| camReady := true; facesLength := 1; nowTime := t;
     distance3_4 := Some d; velocity5y := 0; rnd := 0 |}.

(** Frames [period] apart carrying the given mouth gaps, the first one at
    time [t]. *)
Fixpoint sampled (t period : Q) (ds : list Q) : list Frame :=
  match ds with
  | [] => []
  | d :: rest => mouthFrame t d :: sampled (t + period) period rest
  end.

(** The selection index holds an integer of [0, n). *)
Definition inRange (n : Z) (x : jsint) : Prop :=
  exists i, x = Int i /\ (0 <= i < n)%Z.

(** The [millis()] value an event reads. *)
Definition eventTime (e : Event) : Q :=
  match e with
  | Tick f => nowTime f
  | Heard r => speechTime r
  end.

(** [fs] are tracked frames [period] apart carrying the given mouth gaps,
    the first one at time [t]; the nose may move in any way. *)
Fixpoint samples (t period : Q) (ds : list Q) (fs : list Frame) : Prop :=
  match ds, fs with
  | [], [] => True
  | d :: ds', f :: fs' =>
      tracked f /\ nowTime f == t
      /\ (exists q, distance3_4 f = Some q /\ q == d)
      /\ samples (t + period) period ds' fs'
  | _, _ => False
  end.

Local Close Scope Q_scope.

End Controller.

(* ================================================================== *)
(** ** Vocabulary of the properties *)

Module Spec.
Import Str Matcher.

(** [ks] gives, for each part of a synonym, the index of a word of the
    utterance that matches it. *)
Fixpoint matchesAt (words nameParts : list string) (ks : list nat) : Prop :=
  match nameParts, ks with
  | [], [] => True
  | part :: parts, k :: ks' =>
      (exists w, nth_error words k = Some w /\ partMatches w part = true)
      /\ matchesAt words parts ks'
  | _, _ => False
  end.

(** The indices climb: the first is at least [lo], each next one at least
    [gap] beyond the one before.  [gap = 1] is "after the previous match",
    [gap = 0] is "at or after the previous match". *)
Fixpoint ascending (gap lo : nat) (ks : list nat) : Prop :=
  match ks with
  | [] => True
  | k :: ks' => lo <= k /\ ascending gap (k + gap) ks'
  end.

(** Some synonym of the entry matches. *)
Definition entryMatches (words : list string) (synonyms : list string) : bool :=
  existsb (allPartsFound words) synonyms.

Fixpoint allChars (p : ascii -> bool) (s : string) : bool :=
  match s with
  | EmptyString => true
  | String c s' => p c && allChars p s'
  end.

Definition startsWith (p : ascii -> bool) (s : string) : bool :=
  match s with
  | EmptyString => false
  | String c _ => p c
  end.

(** [Tokenized sep s ts]: [s] is [t0 r1 t1 ... rn tn] where the [ti] are
    the tokens [ts], none of them holding a separator character, and each
    [ri] is a maximal non-empty run of separator characters. *)
Inductive Tokenized (sep : ascii -> bool) : string -> list string -> Prop :=
| Tok_last : forall t,
    allChars (fun c => negb (sep c)) t = true ->
    Tokenized sep t [t]
| Tok_more : forall t r rest ts,
    allChars (fun c => negb (sep c)) t = true ->
    r <> EmptyString ->
    allChars sep r = true ->
    startsWith sep rest = false ->
    Tokenized sep rest ts ->
    Tokenized sep (t ++ r ++ rest) (t :: ts).

(** The separator set without the plus sign: space, hyphen, underscore,
    backtick, apostrophe, period, question mark, exclamation mark. *)
Definition eightSeparators : list ascii :=
  [" "; "-"; "_"; "`"; "'"; "."; "?"; "!"]%char.

Definition isEightSeparator (c : ascii) : bool :=
  existsb (Ascii.eqb c) eightSeparators.

(** ASCII text: every character code is below 128. *)
Definition isAsciiChar (c : ascii) : bool := (N_of_ascii c <? 128)%N.

Definition asciiOnly (s : string) : bool := allChars isAsciiChar s.

Definition asciiNames (names : list (list string)) : bool :=
  forallb (forallb asciiOnly) names.

(** [String.prototype.toUpperCase] on ASCII text. *)
Definition upperChar (c : ascii) : ascii :=
  let n := N_of_ascii c in
  if ((97 <=? n) && (n <=? 122))%N then ascii_of_N (n - 32) else c.

Fixpoint toUpperCase (s : string) : string :=
  match s with
  | EmptyString => EmptyString
  | String c s' => String (upperChar c) (toUpperCase s')
  end.

End Spec.

(* ================================================================== *)
(** ** The frame loop: [gotFaces], [getKeypoint], [measureAngle], [draw] *)

Module Sketch.
Import Geometry Controller Double.

Local Open Scope Q_scope.

(** One detected face: its [keypoints] property holds an array, whose
    entries may be missing, or nothing.  [Raw] is a keypoint as the
    detector delivers it. *)
Record Face (Raw : Type) : Type := mkFace {
  keypoints : option (list (option Raw))
}.
Arguments mkFace {Raw} keypoints.
Arguments keypoints {Raw} f.

(** [!x] on a value that is an object or null/undefined. *)
Definition isMissing {A : Type} (x : option A) : bool :=
  match x with
  | None => true
  | Some _ => false
  end.

(** [face.keypoints]; reading it off a missing face throws. *)
Definition getKeypoints {Raw : Type} (face : option (Face Raw))
  : result (option (list (option Raw))) :=
  match face with
  | Some fc => Ok (keypoints fc)
  | None => TypeError
  end.

(** [array[i]]: an index past the end gives undefined. *)
Definition item {A : Type} (xs : list (option A)) (i : nat) : option A :=
  match nth_error xs i with
  | Some x => x
  | None => None
  end.

(** [keypoints[index]]; indexing a missing array throws. *)
Definition getItem {A : Type} (xs : option (list (option A))) (i : nat)
  : result (option A) :=
  match xs with
  | Some l => Ok (item l i)
  | None => TypeError
  end.

(** The measurement globals written by [draw]. *)
Record Measures : Type := mkMeasures {
  facePointData1 : jsPoint Q;
  facePointData2 : jsPoint Q;
  facePointData3 : jsPoint Q;
  facePointData4 : jsPoint Q;
  facePointData5 : jsPoint Q;
  facePointData5Prev : jsPoint Q;
  distance1_2 : option Q;
  angle1_2 : option Q;
  distance3_4 : option Q;
  angle3_4 : option Q;
  velocity5 : Velocity Q
}.

Definition initialMeasures : Measures :=
  {| facePointData1 := None; facePointData2 := None;
     facePointData3 := None; facePointData4 := None;
     facePointData5 := None; facePointData5Prev := None;
     distance1_2 := Some 0; angle1_2 := Some 0;
     distance3_4 := Some 0; angle3_4 := Some 0;
     velocity5 := mkVelocity 0 0 0 |}.

Definition facePointIndex1 : nat := 234.
Definition facePointIndex2 : nat := 454.
Definition facePointIndex3 : nat := 13.
Definition facePointIndex4 : nat := 14.
Definition facePointIndex5 : nat := 4.

(** What one call of [draw] reads from outside: [cam.ready], [millis()]
    and the generator's next value. *)
Record Clock : Type := mkClock {
  clockReady : bool;
  clockNow : Q;
  clockRnd : Q
}.

Section Detector.

Variable Raw : Type.
(** [cam.mapKeypoint] *)
Variable mapKeypoint : Raw -> jsPoint Q.
(** [Math.sqrt] *)
Variable sqrt : Q -> Q.
(** [Math.atan2(dy, dx) * 180 / Math.PI] *)
Variable atan2Degrees : Q -> Q -> Q.
(** [crtTVImages.length] *)
Variable imagesLength : Z.

(** [faces = results || []]: the global [faces] is an array from then on
    (it starts as [[]]), so the test [!faces] of [getKeypoint] never
    holds and is not modelled. *)
Definition gotFaces (results : option (list (option (Face Raw))))
  : list (option (Face Raw)) :=
  match results with
  | Some r => r
  | None => []
  end.

Definition getKeypoint (faces : list (option (Face Raw)))
           (index faceNumber : nat) : result (jsPoint Q) :=
  if (List.length faces <=? faceNumber)%nat then Ok None
  else
    let face := item faces faceNumber in
    if isMissing face then Ok None
    else
      kps <- getKeypoints face ;;
      if isMissing kps then Ok None
      else
        point <- getItem kps index ;;
        match point with
        | None => Ok None
        | Some raw => Ok (mapKeypoint raw)
        end.

Definition measureAngle (basePoint endPoint : jsPoint Q)
  : result (option Q) :=
  if isFalsy Q basePoint || isFalsy Q endPoint then Ok None
  else
    ex <- getX Q endPoint ;;
    bx <- getX Q basePoint ;;
    let dx := dsub ex bx in
    ey <- getY Q endPoint ;;
    by_ <- getY Q basePoint ;;
    let dy := dsub ey by_ in
    let angle := atan2Degrees dy dx in
    let angle := if gt 0 angle then dadd angle 360 else angle in
    Ok (Some angle).

(** The globals of the sketch: the detected faces, the measurements and
    the controller's state. *)
Record World : Type := mkWorld {
  faces : list (option (Face Raw));
  measures : Measures;
  ui : State
}.

(** The block of [draw] guarded by [faces.length > 0]. *)
Definition updateMeasures (fs : list (option (Face Raw))) (m : Measures)
  : result Measures :=
  p1 <- getKeypoint fs facePointIndex1 0 ;;
  p2 <- getKeypoint fs facePointIndex2 0 ;;
  p3 <- getKeypoint fs facePointIndex3 0 ;;
  p4 <- getKeypoint fs facePointIndex4 0 ;;
  let prev := facePointData5 m in
  p5 <- getKeypoint fs facePointIndex5 0 ;;
  d12 <- measureDistance Q dsub dadd dmul sqrt p1 p2 ;;
  a12 <- measureAngle p1 p2 ;;
  d34 <- measureDistance Q dsub dadd dmul sqrt p3 p4 ;;
  a34 <- measureAngle p3 p4 ;;
  v5 <- measureVelocity Q 0 dsub dadd dmul sqrt p5 prev ;;
  Ok {| facePointData1 := p1; facePointData2 := p2;
        facePointData3 := p3; facePointData4 := p4;
        facePointData5 := p5; facePointData5Prev := prev;
        distance1_2 := d12; angle1_2 := a12;
        distance3_4 := d34; angle3_4 := a34;
        velocity5 := v5 |}.

(** The frame that [drawUI] sees after the measurements were updated. *)
Definition frameOf (c : Clock) (fs : list (option (Face Raw))) (m : Measures)
  : Frame :=
  {| camReady := clockReady c;
     facesLength := List.length fs;
     nowTime := clockNow c;
     Controller.distance3_4 := distance3_4 m;
     velocity5y := vy Q (velocity5 m);
     rnd := clockRnd c |}.

Definition draw (c : Clock) (w : World) : result World :=
  m <- (if (0 <? List.length (faces w))%nat
        then updateMeasures (faces w) (measures w)
        else Ok (measures w)) ;;
  Ok {| faces := faces w;
        measures := m;
        ui := drawUI imagesLength (frameOf c (faces w) m) (ui w) |}.

End Detector.

Arguments faces {Raw} w.
Arguments measures {Raw} w.
Arguments ui {Raw} w.
Arguments mkWorld {Raw} faces measures ui.

Local Close Scope Q_scope.

End Sketch.

(* ================================================================== *)
(** ** The earlier variant of the sketch *)

(** The first [drawUI] and [showResult] of the file: one threshold of 2.5,
    no re-arm delay before listening, a random flower each time the mouth
    re-opens, and a speech callback that only tokenises. *)
Module Earlier.
Import Str Controller Double.

Local Open Scope Q_scope.

Section WithImages.

(** [crtTVImages.length] *)
Variable imagesLength : Z.

Definition drawUI (f : Frame) (s : State) : State :=
  if negb (camReady f) then set_pg pgStarting s
  else if (facesLength f =? 0)%nat then set_pg pgShowFace s
  else
    let nowTime := nowTime f in
    if distanceAbove (distance3_4 f) (5 # 2) then
      let s :=
        if negb (mouthOpen s) then
          let s := callRec RecStart s in
          let s := set_pg pgOpen s in
          let s := set_mouthOpen true s in
          set_mouthOpenTime nowTime s
        else s in
      if mouthClose s && gt (dsub nowTime (mouthCloseTime s)) 100 then
        let s := set_mouthClose false s in
        set_crtTVIndex (randomIndex (rnd f) imagesLength) s
      else s
    else
      let s :=
        if negb (mouthOpen s) && negb (mouthClose s) then set_pg pgClosed s
        else s in
      let s := set_mouthClose true s in
      let s := set_mouthCloseTime nowTime s in
      if mouthOpen s && gt (dsub nowTime (mouthOpenTime s)) 10000 then
        let s := callRec RecStop s in
        let s := set_pg pgClosed s in
        set_mouthOpen false s
      else s.

Definition showResult (r : Speech) (s : State) : State :=
  if resultValue r then
    let s := set_pg pgClosed s in
    let s := set_mouthOpen false s in
    let s := log (LogResultString (resultString r)) s in
    log (LogWords (splitWords (resultString r))) s
  else s.

End WithImages.

Local Close Scope Q_scope.

End Earlier.

(* ================================================================== *)
(** * Properties *)

Import Str Matcher Geometry Double Controller Spec.

(** Case split on the condition of the first conditional of the goal. *)
Ltac branch :=
  match goal with
  | |- context [if ?b then _ else _] => destruct b eqn:?
  end.

(** ** Tokenising *)

Section Tokens.

Variable sep : ascii -> bool.

Lemma allChars_app (p : ascii -> bool) (a b : string) :
  allChars p (a ++ b) = allChars p a && allChars p b.
Proof.
  induction a as [|c a IH]; simpl; [reflexivity|].
  rewrite IH. now rewrite andb_assoc.
Qed.

Lemma Tokenized_nonempty s ts : Tokenized sep s ts -> ts <> [].
Proof. destruct 1; discriminate. Qed.

(** A character outside the class joins the first token. *)
Lemma Tokenized_grow c s t ts :
  sep c = false ->
  Tokenized sep s (t :: ts) ->
  Tokenized sep (String c s) (String c t :: ts).
Proof.
  intros Hc H. inversion H; subst.
  - apply Tok_last. simpl. now rewrite Hc.
  - change (String c (t ++ r ++ rest)) with (String c t ++ r ++ rest).
    apply Tok_more; try assumption. simpl. now rewrite Hc.
Qed.

Lemma splitRuns_nonempty b s : splitRuns sep b s <> [].
Proof.
  revert b. induction s as [|c s IH]; intros b; simpl; [discriminate|].
  destruct (sep c).
  - destruct b; [apply IH | discriminate].
  - destruct (splitRuns sep false s); discriminate.
Qed.

(** Outside a run the result is a tokenisation; inside a run the rest
    of the run is skipped first. *)
Lemma splitRuns_Tokenized s :
  Tokenized sep s (splitRuns sep false s)
  /\ exists r rest,
       s = r ++ rest /\ allChars sep r = true
       /\ startsWith sep rest = false
       /\ Tokenized sep rest (splitRuns sep true s).
Proof.
  induction s as [|c s [IH1 (r & rest & Hs & Hr & Hrest & IH2)]].
  - split; [now apply Tok_last|].
    exists EmptyString, EmptyString. repeat split; try reflexivity.
    now apply Tok_last.
  - simpl. destruct (sep c) eqn:Hc.
    + split.
      * replace (String c s) with (EmptyString ++ String c r ++ rest)
          by (rewrite Hs; reflexivity).
        apply Tok_more; try assumption; try reflexivity; try discriminate.
        simpl. now rewrite Hc.
      * exists (String c r), rest. repeat split; try assumption.
        -- now rewrite Hs.
        -- simpl. now rewrite Hc.
    + assert (H : Tokenized sep (String c s)
                    match splitRuns sep false s with
                    | [] => [String c EmptyString]
                    | t :: ts => String c t :: ts
                    end).
      { destruct (splitRuns sep false s) as [|t ts] eqn:E.
        - now apply Tokenized_nonempty in IH1.
        - now apply Tokenized_grow. }
      split; [exact H|].
      exists EmptyString, (String c s). repeat split; try assumption.
Qed.

Lemma splitRuns_token t :
  allChars (fun c => negb (sep c)) t = true ->
  splitRuns sep false t = [t].
Proof.
  induction t as [|c t IH]; simpl; [reflexivity|].
  intros H. apply andb_prop in H as [Hc Ht].
  apply negb_true_iff in Hc. rewrite Hc, (IH Ht). reflexivity.
Qed.

Lemma splitRuns_skip r rest :
  allChars sep r = true ->
  startsWith sep rest = false ->
  splitRuns sep true (r ++ rest) = splitRuns sep false rest.
Proof.
  intros Hr Hrest. induction r as [|c r IH]; simpl.
  - destruct rest as [|c rest]; [reflexivity|].
    simpl in *. now rewrite Hrest.
  - simpl in Hr. apply andb_prop in Hr as [Hc Hr].
    rewrite Hc. now apply IH.
Qed.

(** A tokenisation is what [split] returns. *)
Lemma Tokenized_splitRuns s ts :
  Tokenized sep s ts -> splitRuns sep false s = ts.
Proof.
  induction 1 as [t Ht | t r rest ts Ht Hne Hr Hrest _ IH].
  - now apply splitRuns_token.
  - induction t as [|c t IHt]; simpl.
    + destruct r as [|c r]; [congruence|].
      simpl in *. apply andb_prop in Hr as [Hc Hr]. rewrite Hc.
      rewrite (splitRuns_skip _ _ Hr Hrest), IH. reflexivity.
    + simpl in Ht. apply andb_prop in Ht as [Hc Ht].
      apply negb_true_iff in Hc. rewrite Hc, (IHt Ht). reflexivity.
Qed.

Lemma splitRuns_iff s ts :
  splitRuns sep false s = ts <-> Tokenized sep s ts.
Proof.
  split.
  - intros <-. apply splitRuns_Tokenized.
  - apply Tokenized_splitRuns.
Qed.

End Tokens.

Example splitWords_sentence :
  splitWords "I would like to see a rose please"
  = ["I"; "would"; "like"; "to"; "see"; "a"; "rose"; "please"].
Proof. reflexivity. Qed.

Example splitWords_runs_and_ends :
  splitWords " rose-garden... Now!" = [""; "rose"; "garden"; "Now"; ""]
  /\ splitWords "" = [""]
  /\ splitSpace "rose of  sharon" = ["rose"; "of"; ""; "sharon"].
Proof. repeat split. Qed.

Lemma lowerChar_upperChar c : lowerChar (upperChar c) = lowerChar c.
Proof. destruct c as [[] [] [] [] [] [] [] []]; reflexivity. Qed.

Lemma toLowerCase_toUpperCase s : toLowerCase (toUpperCase s) = toLowerCase s.
Proof.
  induction s as [|c s IH]; simpl; [reflexivity|].
  now rewrite lowerChar_upperChar, IH.
Qed.

Lemma toLowerCase_length s : String.length (toLowerCase s) = String.length s.
Proof. induction s as [|c s IH]; simpl; congruence. Qed.

Lemma isSeparator_spec c :
  isSeparator c = true
  <-> In c [" "; "+"; "-"; "_"; "`"; "'"; "."; "?"; "!"]%char.
Proof.
  unfold isSeparator. rewrite existsb_exists. split.
  - intros (x & Hin & Heq). apply Ascii.eqb_eq in Heq. now subst.
  - intros Hin. exists c. split; [exact Hin | apply Ascii.eqb_refl].
Qed.

(** C5, as the code has it: the utterance is cut at the maximal runs of the
    nine characters space, plus, hyphen, underscore, backtick, apostrophe,
    period, question mark and exclamation mark, and nowhere else; the tokens
    are what lies between the runs (empty at an end where the utterance
    starts or ends with a run).  On ASCII text a token matches a synonym
    word exactly when the two are equal after lower-casing, so the case of
    either side does not matter and only words of the same length can
    match. *)
Theorem C5_tokens_and_comparison :
  forall utterance : string,
    (forall ts, splitWords utterance = ts
                <-> Tokenized isSeparator utterance ts)
    /\ (forall c, isSeparator c = true
                  <-> In c [" "; "+"; "-"; "_"; "`"; "'"; "."; "?"; "!"]%char)
    /\ (forall word part,
           asciiOnly word = true ->
           asciiOnly part = true ->
           (partMatches word part = true
            <-> toLowerCase word = toLowerCase part)
           /\ partMatches (toUpperCase word) part = partMatches word part
           /\ partMatches word (toUpperCase part) = partMatches word part
           /\ (partMatches word part = true
               -> String.length word = String.length part)).
Proof.
  intros utterance. split; [|split].
  - intros ts. apply splitRuns_iff.
  - apply isSeparator_spec.
  - intros word part _ _. unfold partMatches. repeat split.
    + apply String.eqb_eq.
    + apply String.eqb_eq.
    + now rewrite toLowerCase_toUpperCase.
    + now rewrite toLowerCase_toUpperCase.
    + intros H. apply String.eqb_eq in H.
      rewrite <- (toLowerCase_length word), <- (toLowerCase_length part).
      now rewrite H.
Qed.

Lemma C5_tokens_and_comparison_witness :
  asciiOnly "Rose" = true
  /\ asciiOnly "ROSE" = true
  /\ partMatches "Rose" "ROSE" = true
  /\ String.length "Rose" = String.length "ROSE"
  /\ Tokenized isSeparator "a Rose... please" ["a"; "Rose"; "please"].
Proof.
  pose proof (C5_tokens_and_comparison "a Rose... please")
    as (Htokens & _ & Hcompare).
  destruct (Hcompare "Rose" "ROSE" eq_refl eq_refl)
    as (Hmatch & _ & _ & Hlength).
  split; [reflexivity|]. split; [reflexivity|].
  split; [apply Hmatch; reflexivity|].
  split; [apply Hlength, Hmatch; reflexivity|].
  apply Htokens. reflexivity.
Defined.

(** C5 as stated fails on the plus sign: "a+b" comes out as two tokens,
    which is no tokenisation for the eight-character set. *)
Lemma C5_plus_sign_splits :
  splitWords "a+b" = ["a"; "b"]
  /\ ~ Tokenized isEightSeparator "a+b" (splitWords "a+b").
Proof.
  split; [reflexivity|].
  intros H. apply Tokenized_splitRuns in H. discriminate H.
Qed.

(** ** Matching one synonym *)

Lemma findPart_found part ws k0 k :
  findPart part ws k0 = Some k ->
  k0 <= k
  /\ exists w, nth_error ws (k - k0) = Some w /\ partMatches w part = true.
Proof.
  revert k0. induction ws as [|w ws IH]; intros k0; simpl; [discriminate|].
  destruct (partMatches w part) eqn:E.
  - intros [= <-]. split; [lia|]. exists w. now rewrite Nat.sub_diag.
  - intros H. apply IH in H as (Hle & w' & Hnth & Hm).
    split; [lia|]. exists w'. split; [|exact Hm].
    replace (k - k0) with (S (k - S k0)) by lia. exact Hnth.
Qed.

(** The scan stops at the first matching word, so no later than any
    matching word. *)
Lemma findPart_first part ws k0 j w :
  nth_error ws j = Some w ->
  partMatches w part = true ->
  exists k, findPart part ws k0 = Some k /\ k <= k0 + j.
Proof.
  revert k0 j. induction ws as [|w0 ws IH]; intros k0 j Hnth Hm.
  - destruct j; discriminate.
  - simpl. destruct (partMatches w0 part) eqn:E.
    + exists k0. split; [reflexivity | lia].
    + destruct j as [|j]; simpl in Hnth.
      * congruence.
      * destruct (IH (S k0) j Hnth Hm) as (k & Hk & Hle).
        exists k. split; [exact Hk | lia].
Qed.

Lemma ascending_lower gap lo lo' ks :
  lo' <= lo -> ascending gap lo ks -> ascending gap lo' ks.
Proof.
  destruct ks as [|k ks]; simpl; [trivial|].
  intros Hle [Hlo Hks]. split; [lia | exact Hks].
Qed.

Lemma matchesAt_length words parts ks :
  matchesAt words parts ks -> List.length ks = List.length parts.
Proof.
  revert ks. induction parts as [|p parts IH]; intros [|k ks]; simpl;
    try tauto.
  intros [_ H]. f_equal. now apply IH.
Qed.

(** The greedy scan succeeds exactly when the parts can be placed on
    matching words at strictly increasing indices from [wordIndex] on. *)
Lemma allPartsFrom_iff words parts wordIndex :
  allPartsFrom words parts wordIndex = true
  <-> exists ks, matchesAt words parts ks /\ ascending 1 wordIndex ks.
Proof.
  revert wordIndex. induction parts as [|p parts IH]; intros wi; simpl.
  - split; [|reflexivity]. intros _. exists []. simpl. tauto.
  - split.
    + destruct (findPart p (skipn wi words) wi) as [k|] eqn:E; [|discriminate].
      intros H. apply IH in H as (ks & Hm & Hasc).
      apply findPart_found in E as (Hle & w & Hnth & Hw).
      rewrite nth_error_skipn in Hnth.
      replace (wi + (k - wi)) with k in Hnth by lia.
      exists (k :: ks). simpl. repeat split; eauto.
    + intros ([|k ks] & Hm & Hasc); simpl in Hm, Hasc; [contradiction|].
      destruct Hm as [(w & Hnth & Hw) Hm]. destruct Hasc as [Hle Hasc].
      destruct (findPart_first p (skipn wi words) wi (k - wi) w)
        as (k' & Hk' & Hle'); [|exact Hw|].
      * rewrite nth_error_skipn. now replace (wi + (k - wi)) with k by lia.
      * rewrite Hk'. apply IH. exists ks. split; [exact Hm|].
        apply ascending_lower with (lo := k + 1); [lia | exact Hasc].
Qed.

(** C1, as the code has it: a synonym counts as matched exactly when its
    words (its parts between single spaces) can be placed, in order, on
    tokens of the utterance that equal them up to case, each one strictly
    after the token that took the previous word.  Filler words around a
    one-word synonym do no harm; "rose garden" does not match
    "rose of sharon"; neither does "sharon rose". *)
Theorem C1_ordered_subsequence :
  (forall utterance nameEntry : string,
      allPartsFound (splitWords utterance) nameEntry = true
      <-> exists ks,
            matchesAt (splitWords utterance) (splitSpace nameEntry) ks
            /\ ascending 1 0 ks)
  /\ allPartsFound (splitWords "I would like to see a rose please") "rose"
     = true
  /\ allPartsFound (splitWords "rose garden") "rose of sharon" = false
  /\ allPartsFound (splitWords "sharon rose") "rose of sharon" = false.
Proof.
  split; [|repeat split].
  intros utterance nameEntry. apply allPartsFrom_iff.
Qed.

Lemma C1_ordered_subsequence_witness :
  exists ks,
    matchesAt (splitWords "I would like to see a rose please")
              (splitSpace "rose") ks
    /\ ascending 1 0 ks.
Proof.
  apply (proj1 (proj1 C1_ordered_subsequence
                      "I would like to see a rose please" "rose")).
  reflexivity.
Defined.

(** C1 as stated ("at or after the position of the previously matched
    word") fails when a synonym repeats a word: both words of
    "ylang ylang" match token 0 of the utterance "ylang", the second one
    at the position of the first, yet the synonym is not matched. *)
Lemma C1_repeated_word_not_matched :
  allPartsFound (splitWords "ylang") "ylang ylang" = false
  /\ exists ks,
       matchesAt (splitWords "ylang") (splitSpace "ylang ylang") ks
       /\ ascending 0 0 ks.
Proof.
  split; [reflexivity|].
  exists [0; 0]. simpl. repeat split; try lia; exists "ylang"; now split.
Qed.

(** ** Searching the catalogue *)

Lemma firstSynonym_none words synonyms :
  firstSynonym words synonyms = None <-> entryMatches words synonyms = false.
Proof.
  unfold entryMatches.
  induction synonyms as [|n synonyms IH]; simpl; [tauto|].
  destruct (allPartsFound words n); simpl; [|exact IH].
  split; discriminate.
Qed.

Lemma firstSynonym_some words synonyms nameEntry :
  firstSynonym words synonyms = Some nameEntry ->
  exists before after,
    synonyms = (before ++ nameEntry :: after)%list
    /\ allPartsFound words nameEntry = true
    /\ Forall (fun n => allPartsFound words n = false) before.
Proof.
  induction synonyms as [|n synonyms IH]; simpl; [discriminate|].
  destruct (allPartsFound words n) eqn:E.
  - intros [= <-]. exists [], synonyms. repeat split; auto.
  - intros H. destruct (IH H) as (before & after & -> & Hm & Hb).
    exists (n :: before), after. repeat split; auto.
Qed.

Lemma searchFrom_none words entries i0 :
  searchFrom words entries i0 = None
  <-> forall synonyms, In synonyms entries ->
                       entryMatches words synonyms = false.
Proof.
  revert i0. induction entries as [|e entries IH]; intros i0; simpl.
  - split; [intros _ ? [] | reflexivity].
  - destruct (firstSynonym words e) as [n|] eqn:E.
    + split; [discriminate|]. intros H.
      assert (He : firstSynonym words e = None)
        by (apply firstSynonym_none, H; now left).
      congruence.
    + rewrite IH. apply firstSynonym_none in E. split.
      * intros H syn [<- | Hin]; auto.
      * intros H syn Hin. apply H. now right.
Qed.

Lemma searchFrom_some words entries i0 i nameEntry :
  searchFrom words entries i0 = Some (i, nameEntry) ->
  i0 <= i
  /\ exists synonyms,
       nth_error entries (i - i0) = Some synonyms
       /\ firstSynonym words synonyms = Some nameEntry
       /\ forall j synonyms',
            j < i - i0 -> nth_error entries j = Some synonyms' ->
            entryMatches words synonyms' = false.
Proof.
  revert i0. induction entries as [|e entries IH]; intros i0; simpl;
    [discriminate|].
  destruct (firstSynonym words e) as [n|] eqn:E.
  - intros [= <- <-]. split; [lia|]. exists e. rewrite Nat.sub_diag.
    repeat split; auto. intros j ? Hj. lia.
  - intros H. apply IH in H as (Hle & syn & Hnth & Hfirst & Hbefore).
    split; [lia|]. exists syn.
    replace (i - i0) with (S (i - S i0)) by lia. repeat split; auto.
    intros [|j] syn' Hj Hnth'; simpl in Hnth'.
    + injection Hnth' as <-. now apply firstSynonym_none.
    + apply (Hbefore j); [lia | exact Hnth'].
Qed.

(** C4: when some entry has a matching synonym, [foundIndex] is the index
    of the first such entry in catalogue order, and the synonym reported
    for it is the first of that entry's synonyms, in declaration order,
    that matches; when no entry matches, [foundIndex] is -1.  The first
    match wins even where a later synonym fits the utterance better. *)
Theorem C4_first_match_wins :
  forall (utterance : string) (names : list (list string)),
    let words := splitWords utterance in
    ((exists synonyms,
         In synonyms names /\ entryMatches words synonyms = true) ->
     exists i synonyms before nameEntry after,
       foundIndex words names = Z.of_nat i
       /\ search words names = Some (i, nameEntry)
       /\ nth_error names i = Some synonyms
       /\ (forall i' synonyms',
              i' < i -> nth_error names i' = Some synonyms' ->
              entryMatches words synonyms' = false)
       /\ synonyms = (before ++ nameEntry :: after)%list
       /\ allPartsFound words nameEntry = true
       /\ Forall (fun n => allPartsFound words n = false) before)
    /\ ((forall synonyms,
            In synonyms names -> entryMatches words synonyms = false) ->
        foundIndex words names = (-1)%Z)
    /\ search (splitWords "rose of sharon") [["rose"]; ["rose of sharon"]]
       = Some (0, "rose").
Proof.
  intros utterance names words. split; [|split; [|reflexivity]].
  - intros (syn0 & Hin & Hmatch).
    unfold foundIndex, search.
    destruct (searchFrom words names 0) as [[i n]|] eqn:E.
    + apply searchFrom_some in E as (_ & syn & Hnth & Hfirst & Hbefore).
      rewrite Nat.sub_0_r in Hnth, Hbefore.
      destruct (firstSynonym_some _ _ _ Hfirst) as (before & after & Hs & Hm & Hb).
      exists i, syn, before, n, after. repeat split; auto.
    + rewrite searchFrom_none in E. rewrite (E _ Hin) in Hmatch. discriminate.
  - intros Hnone. unfold foundIndex, search.
    apply (searchFrom_none words names 0) in Hnone. now rewrite Hnone.
Qed.

(** C4 at the sketch's own catalogue: "show me a sweet violet" selects
    entry 16 through its first synonym. *)
Lemma C4_first_match_wins_witness :
  exists i synonyms before nameEntry after,
    foundIndex (splitWords "show me a sweet violet") crtTVNames = Z.of_nat i
    /\ search (splitWords "show me a sweet violet") crtTVNames
       = Some (i, nameEntry)
    /\ nth_error crtTVNames i = Some synonyms
    /\ (forall i' synonyms',
           i' < i -> nth_error crtTVNames i' = Some synonyms' ->
           entryMatches (splitWords "show me a sweet violet") synonyms'
           = false)
    /\ synonyms = (before ++ nameEntry :: after)%list
    /\ allPartsFound (splitWords "show me a sweet violet") nameEntry = true
    /\ Forall (fun n => allPartsFound (splitWords "show me a sweet violet") n
                        = false) before.
Proof.
  apply (C4_first_match_wins "show me a sweet violet" crtTVNames).
  exists ["violet"; "viola"; "sweet violet"]. split.
  - simpl. do 16 right. now left.
  - reflexivity.
Defined.

(** ** Geometric measures on missing points *)

(** C6: with a null argument on either side, [measureDistance] returns
    null and [measureVelocity] returns the zero vector; no property of the
    null point is read, so nothing is thrown. *)
Theorem C6_null_points :
  forall (num : Type) (zero : num) (sub add mul : num -> num -> num)
         (sqrt : num -> num) (p1 p2 : jsPoint num),
    p1 = None \/ p2 = None ->
    measureDistance num sub add mul sqrt p1 p2 = Ok None
    /\ measureVelocity num zero sub add mul sqrt p1 p2
       = Ok {| vx := zero; vy := zero; speed := zero |}.
Proof.
  intros num zero sub add mul sqrt p1 p2 [-> | ->].
  - split; reflexivity.
  - destruct p1; split; reflexivity.
Qed.

Lemma C6_null_points_witness :
  measureDistance Z Z.sub Z.add Z.mul Z.sqrt
                  (Some {| px := 3; py := 4 |}%Z) None = Ok None
  /\ measureVelocity Z 0%Z Z.sub Z.add Z.mul Z.sqrt
                     (Some {| px := 3; py := 4 |}%Z) None
     = Ok {| vx := 0; vy := 0; speed := 0 |}%Z.
Proof.
  apply (C6_null_points Z 0%Z Z.sub Z.add Z.mul Z.sqrt
                        (Some {| px := 3; py := 4 |}%Z) None).
  right. reflexivity.
Defined.

(** On two detected points the measures are the usual ones. *)
Lemma measures_on_points :
  forall (num : Type) (zero : num) (sub add mul : num -> num -> num)
         (sqrt : num -> num) (x1 y1 x2 y2 : num),
    measureDistance num sub add mul sqrt
                    (Some (mkPoint x1 y1)) (Some (mkPoint x2 y2))
    = Ok (Some (sqrt (add (mul (sub x2 x1) (sub x2 x1))
                          (mul (sub y2 y1) (sub y2 y1)))))
    /\ measureVelocity num zero sub add mul sqrt
                       (Some (mkPoint x1 y1)) (Some (mkPoint x2 y2))
       = Ok (mkVelocity (sub x1 x2) (sub y1 y2)
                        (sqrt (add (mul (sub x1 x2) (sub x1 x2))
                                   (mul (sub y1 y2) (sub y1 y2))))).
Proof. intros. split; reflexivity. Qed.

(** ** The controller *)

Local Open Scope Q_scope.

(** ** Rounding to the nearest double *)

Lemma pow2_pos e : 0 < pow2 e.
Proof. unfold pow2. apply Qpower_0_lt. reflexivity. Qed.

Lemma nearestEven_floor y :
  (Qfloor y <= nearestEven y)%Z
  /\ (nearestEven y = Qfloor y \/ (nearestEven y = Qfloor y + 1)%Z /\ inject_Z (Qfloor y) < y).
Proof.
  unfold nearestEven.
  destruct (Qcompare_spec (y - inject_Z (Qfloor y)) (1 # 2)) as [H | H | H].
  - destruct (Z.even (Qfloor y)).
    + split; [lia | now left].
    + split; [lia|]. right. split; [reflexivity | lra].
  - split; [lia | now left].
  - split; [lia|]. right. split; [reflexivity | lra].
Qed.

Lemma nearestEven_le y K : y <= inject_Z K -> (nearestEven y <= K)%Z.
Proof.
  intros H. destruct (nearestEven_floor y) as [_ [E | [E Hlt]]]; rewrite E.
  - rewrite <- (Qfloor_Z K). now apply Qfloor_resp_le.
  - assert (Hf : inject_Z (Qfloor y) < inject_Z K) by lra.
    rewrite <- Zlt_Qlt in Hf. lia.
Qed.

Lemma nearestEven_ge y K : inject_Z K <= y -> (K <= nearestEven y)%Z.
Proof.
  intros H. destruct (nearestEven_floor y) as [Hle _].
  apply Z.le_trans with (m := Qfloor y); [|exact Hle].
  rewrite <- (Qfloor_Z K). now apply Qfloor_resp_le.
Qed.

Lemma binade_mono x c : 0 < x -> x <= c -> (binade x <= binade c)%Z.
Proof.
  intros Hx Hle. unfold binade.
  destruct (Qle_bool 1 x) eqn:Ex; destruct (Qle_bool 1 c) eqn:Ec.
  - apply Z.log2_le_mono. now apply Qfloor_resp_le.
  - apply Qle_bool_iff in Ex.
    assert (Hc : 1 <= c) by lra. apply Qle_bool_iff in Hc. congruence.
  - pose proof (Z.log2_up_nonneg (Qceiling (/ x))).
    pose proof (Z.log2_nonneg (Qfloor c)). lia.
  - apply -> Z.opp_le_mono. apply Z.log2_up_le_mono.
    apply Qceiling_resp_le.
    assert (Hc : 0 < c) by lra.
    apply Qle_shift_inv_l; [exact Hx|].
    setoid_replace (/ c * x) with (x / c) by (unfold Qdiv; ring).
    apply Qle_shift_div_r; [exact Hc | lra].
Qed.

Lemma Qabs_of_pos x : 0 < x -> Qabs x = x.
Proof.
  destruct x as [n d]. unfold Qlt, Qabs. simpl. intros H.
  f_equal. apply Z.abs_eq. lia.
Qed.

Lemma ulpExponent_mono x c :
  0 < x -> x <= c -> (ulpExponent x <= ulpExponent c)%Z.
Proof.
  intros Hx Hle. unfold ulpExponent.
  rewrite (Qabs_of_pos x Hx), (Qabs_of_pos c) by lra.
  pose proof (binade_mono x c Hx Hle). lia.
Qed.

Lemma roundReduced_le x c :
  x <= c -> 0 <= c -> roundReduced c == c -> roundReduced x <= c.
Proof.
  intros Hle Hc Hfix. unfold roundReduced at 1.
  destruct (Qeq_bool x 0) eqn:E0; [exact Hc|].
  assert (Hx0 : ~ x == 0)
    by (intros H; apply Qeq_bool_iff in H; congruence).
  set (ex := ulpExponent x).
  pose proof (pow2_pos ex) as Hp.
  destruct (Qlt_le_dec x 0) as [Hneg | Hpos].
  - assert (Hk : (nearestEven (x / pow2 ex) <= 0)%Z).
    { apply nearestEven_le. apply Qle_shift_div_r; [exact Hp|].
      change (inject_Z 0) with 0. lra. }
    rewrite Zle_Qle in Hk. change (inject_Z 0) with 0 in Hk.
    apply Qle_trans with (y := 0); [|exact Hc].
    setoid_replace 0 with (0 * pow2 ex) by ring.
    apply Qmult_le_compat_r; [exact Hk | lra].
  - assert (Hx : 0 < x).
    { destruct (Qeq_dec x 0) as [H | H]; [contradiction|].
      apply Qle_lteq in Hpos as [H1 | H1]; [exact H1|].
      symmetry in H1. contradiction. }
    assert (Hc0 : 0 < c) by lra.
    unfold roundReduced in Hfix.
    destruct (Qeq_bool c 0) eqn:Ec0;
      [apply Qeq_bool_iff in Ec0; lra|].
    set (ec := ulpExponent c) in *.
    set (Kc := nearestEven (c / pow2 ec)) in *.
    pose proof (ulpExponent_mono x c Hx Hle) as He. fold ex ec in He.
    assert (Hsplit : pow2 ec == inject_Z (2 ^ (ec - ex)) * pow2 ex).
    { rewrite Zpower_Qpower by lia. unfold pow2.
      rewrite <- Qpower_plus by discriminate.
      now replace (ec - ex + ex)%Z with ec by lia. }
    assert (Hcc : c == inject_Z (Kc * 2 ^ (ec - ex)) * pow2 ex).
    { rewrite <- Hfix at 1. rewrite Hsplit, inject_Z_mult. ring. }
    assert (Hk : (nearestEven (x / pow2 ex) <= Kc * 2 ^ (ec - ex))%Z).
    { apply nearestEven_le. apply Qle_shift_div_r; [exact Hp|].
      now rewrite <- Hcc. }
    rewrite Zle_Qle in Hk. rewrite Hcc.
    apply Qmult_le_compat_r; [exact Hk | lra].
Qed.

Lemma roundDouble_comp x y : x == y -> roundDouble x = roundDouble y.
Proof. intros H. unfold roundDouble. now rewrite (Qred_complete _ _ H). Qed.

Lemma roundDouble_le x c :
  x <= c -> 0 <= c -> roundDouble c == c -> roundDouble x <= c.
Proof.
  unfold roundDouble. intros Hle Hc Hfix.
  rewrite Qred_correct in Hfix. rewrite Qred_correct.
  apply Qle_trans with (y := Qred c).
  - apply roundReduced_le.
    + now rewrite !Qred_correct.
    + now rewrite Qred_correct.
    + rewrite Hfix. symmetry. apply Qred_correct.
  - rewrite Qred_correct. apply Qle_refl.
Qed.

Lemma roundDouble_nonneg x : 0 <= x -> 0 <= roundDouble x.
Proof.
  intros Hx. unfold roundDouble. rewrite Qred_correct.
  assert (Hx' : 0 <= Qred x) by now rewrite Qred_correct.
  unfold roundReduced. destruct (Qeq_bool (Qred x) 0); [lra|].
  set (e := ulpExponent (Qred x)). pose proof (pow2_pos e) as Hp.
  assert (Hk : (0 <= nearestEven (Qred x / pow2 e))%Z).
  { apply nearestEven_ge. change (inject_Z 0) with 0.
    apply Qle_shift_div_l; [exact Hp | lra]. }
  rewrite Zle_Qle in Hk. change (inject_Z 0) with 0 in Hk.
  apply Qmult_le_0_compat; [exact Hk | lra].
Qed.

(** A difference that is itself a double is computed exactly. *)
Lemma dsub_exact a b c : a - b == c -> roundDouble c == c -> dsub a b == c.
Proof.
  intros E Hfix. unfold dsub. now rewrite (roundDouble_comp _ _ E).
Qed.

(** A difference that does not exceed a double bound is not computed
    above it. *)
Lemma dsub_le a b c :
  a - b <= c -> 0 <= c -> roundDouble c == c -> dsub a b <= c.
Proof. intros. unfold dsub. now apply roundDouble_le. Qed.

(** *** The range of a product with a number of [0, 1) *)

Lemma pow2_inject k : (0 <= k)%Z -> pow2 k == inject_Z (2 ^ k).
Proof. intros H. unfold pow2. now rewrite Zpower_Qpower. Qed.

Lemma pow2_binade_le y : 0 < y -> pow2 (binade y) <= y.
Proof.
  intros Hy. unfold binade. destruct (Qle_bool 1 y) eqn:E.
  - apply Qle_bool_iff in E.
    assert (Hf : (1 <= Qfloor y)%Z).
    { change 1%Z with (Qfloor 1). now apply Qfloor_resp_le. }
    destruct (Z.log2_spec (Qfloor y)) as [Hlo _]; [lia|].
    rewrite pow2_inject by apply Z.log2_nonneg.
    apply Qle_trans with (y := inject_Z (Qfloor y)).
    + now rewrite <- Zle_Qle.
    + apply Qfloor_le.
  - assert (Hy1 : y < 1).
    { apply Qnot_le_lt. intros H. apply Qle_bool_iff in H. congruence. }
    set (c := Qceiling (/ y)).
    assert (Hinv : 1 < / y).
    { pose proof (proj1 (Qinv_lt_contravar y 1 Hy eq_refl) Hy1) as H.
      exact H. }
    assert (Hc : / y <= inject_Z c) by apply Qle_ceiling.
    assert (Hc1 : (1 < c)%Z).
    { rewrite Zlt_Qlt. change (inject_Z 1) with 1. lra. }
    destruct (Z.log2_up_spec c Hc1) as [_ Hup].
    assert (HL : (0 <= Z.log2_up c)%Z) by apply Z.log2_up_nonneg.
    unfold pow2. rewrite Qpower_opp. fold (pow2 (Z.log2_up c)).
    pose proof (pow2_pos (Z.log2_up c)) as Hp.
    assert (Hle : / y <= pow2 (Z.log2_up c)).
    { rewrite pow2_inject by exact HL.
      apply Qle_trans with (y := inject_Z c); [exact Hc|].
      now rewrite <- Zle_Qle. }
    apply Qle_shift_inv_r; [exact Hp|].
    setoid_replace 1 with (y * / y) by (field; lra).
    apply Qmult_le_l; [exact Hy | exact Hle].
Qed.

Lemma binade_half z : 1 # 2 <= z -> z < 1 -> binade z = (-1)%Z.
Proof.
  intros Hlo Hhi. unfold binade.
  assert (E : Qle_bool 1 z = false).
  { destruct (Qle_bool 1 z) eqn:E; [|reflexivity].
    apply Qle_bool_iff in E. lra. }
  rewrite E.
  assert (Hz : 0 < z) by lra.
  assert (Hinv1 : 1 < / z)
    by exact (proj1 (Qinv_lt_contravar z 1 Hz eq_refl) Hhi).
  assert (Hinv2 : / z <= 2).
  { apply Qle_shift_inv_r; [exact Hz|]. lra. }
  pose proof (Qle_ceiling (/ z)) as H1.
  pose proof (Qceiling_lt (/ z)) as H2.
  assert (Hc : Qceiling (/ z) = 2%Z).
  { assert (A : (1 < Qceiling (/ z))%Z).
    { rewrite Zlt_Qlt. change (inject_Z 1) with 1. lra. }
    assert (B : (Qceiling (/ z) - 1 < 2)%Z).
    { rewrite Zlt_Qlt. change (inject_Z 2) with 2. lra. }
    lia. }
  rewrite Hc. reflexivity.
Qed.

Lemma nearestEven_below z N :
  z < inject_Z N - (1 # 2) -> (nearestEven z <= N - 1)%Z.
Proof.
  intros H. unfold nearestEven.
  pose proof (Qfloor_le z) as Hf.
  assert (Hlt : (Qfloor z < N)%Z).
  { rewrite Zlt_Qlt. lra. }
  destruct (Qcompare_spec (z - inject_Z (Qfloor z)) (1 # 2)) as [E | E | E].
  - assert (Hlt2 : (Qfloor z < N - 1)%Z).
    { rewrite Zlt_Qlt. unfold Zminus. rewrite inject_Z_plus.
      change (inject_Z (- (1))) with (-1). lra. }
    destruct (Z.even (Qfloor z)); lia.
  - lia.
  - assert (Hlt2 : (Qfloor z < N - 1)%Z).
    { rewrite Zlt_Qlt. unfold Zminus. rewrite inject_Z_plus.
      change (inject_Z (- (1))) with (-1). lra. }
    lia.
Qed.

Lemma double_below_one x :
  roundDouble x == x -> x < 1 -> x <= 1 - (1 # 9007199254740992).
Proof.
  intros Hfix Hlt.
  destruct (Qlt_le_dec x (1 # 2)) as [Hsmall | Hbig]; [lra|].
  unfold roundDouble in Hfix. rewrite Qred_correct in Hfix.
  pose proof (Qred_correct x) as Hred.
  set (x' := Qred x) in *.
  assert (Hlo' : 1 # 2 <= x') by lra.
  assert (Hhi' : x' < 1) by lra.
  unfold roundReduced in Hfix.
  destruct (Qeq_bool x' 0) eqn:E0; [apply Qeq_bool_iff in E0; lra|].
  unfold ulpExponent in Hfix.
  rewrite (Qabs_of_pos x') in Hfix by lra.
  rewrite (binade_half x' Hlo' Hhi') in Hfix.
  change (Z.max (-1 - 52) (-1074)) with (-53)%Z in Hfix.
  set (K := nearestEven (x' / pow2 (-53))) in *.
  assert (Hp : pow2 (-53) == 1 # 9007199254740992) by reflexivity.
  rewrite Hp in Hfix.
  assert (HK : (K < 9007199254740992)%Z).
  { rewrite Zlt_Qlt. 
    assert (inject_Z K * (1 # 9007199254740992) < 1) by lra.
    change (inject_Z 9007199254740992) with 9007199254740992.
    lra. }
  assert (HK' : (K <= 9007199254740991)%Z) by lia.
  rewrite Zle_Qle in HK'.
  change (inject_Z 9007199254740991) with 9007199254740991 in HK'.
  lra.
Qed.

Lemma binade_inject n : (0 < n)%Z -> binade (inject_Z n) = Z.log2 n.
Proof.
  intros Hn. unfold binade.
  assert (E : Qle_bool 1 (inject_Z n) = true).
  { apply Qle_bool_iff. change 1 with (inject_Z 1). rewrite <- Zle_Qle. lia. }
  rewrite E, Qfloor_Z. reflexivity.
Qed.

Lemma roundDouble_below x n :
  (0 < n < 2 ^ 53)%Z -> 0 <= x -> x <= 1 - (1 # 9007199254740992) ->
  roundDouble (x * inject_Z n) < inject_Z n.
Proof.
  intros [Hn0 Hn53] Hx0 Hx1.
  assert (Hn1 : 1 <= inject_Z n).
  { change 1 with (inject_Z 1). rewrite <- Zle_Qle. lia. }
  unfold roundDouble. rewrite Qred_correct.
  pose proof (Qred_correct (x * inject_Z n)) as Hred.
  set (y := Qred (x * inject_Z n)) in *.
  assert (Hy0 : 0 <= y).
  { rewrite Hred. apply Qmult_le_0_compat; lra. }
  assert (Hy1 : y <= inject_Z n - inject_Z n * (1 # 9007199254740992)).
  { rewrite Hred.
    setoid_replace (inject_Z n - inject_Z n * (1 # 9007199254740992))
      with ((1 - (1 # 9007199254740992)) * inject_Z n) by ring.
    apply Qmult_le_compat_r; lra. }
  unfold roundReduced.
  destruct (Qeq_bool y 0) eqn:E0; [lra|].
  assert (Hy : 0 < y).
  { destruct (Qeq_dec y 0) as [H | H].
    - apply Qeq_bool_iff in H. congruence.
    - apply Qle_lteq in Hy0 as [H1 | H1]; [exact H1|].
      symmetry in H1. contradiction. }
  assert (Hb : (binade y <= 52)%Z).
  { assert (Hle : y <= inject_Z n) by lra.
    pose proof (binade_mono y (inject_Z n) Hy Hle) as Hm.
    rewrite (binade_inject n Hn0) in Hm.
    assert (Z.log2 n < 53)%Z by (apply Z.log2_lt_pow2; lia).
    lia. }
  pose proof (pow2_binade_le y Hy) as Hpb.
  unfold ulpExponent. rewrite (Qabs_of_pos y Hy).
  set (e := Z.max (binade y - 52) (-1074)).
  assert (He : (e <= 0)%Z) by (unfold e; lia).
  pose proof (pow2_pos e) as Hp.
  assert (Hhalf : pow2 e * (1 # 2) < inject_Z n * (1 # 9007199254740992)).
  { unfold e. destruct (Z.max_spec (binade y - 52) (-1074)) as [[_ ->] | [_ ->]].
    - assert (Hs : pow2 (-1074) < 1 # 9007199254740992) by reflexivity.
      lra.
    - assert (Hs : pow2 (binade y - 52)
                   == pow2 (binade y) * (1 # 4503599627370496)).
      { unfold pow2, Z.sub. rewrite Qpower_plus by discriminate.
        reflexivity. }
      rewrite Hs. lra. }
  set (N := (n * 2 ^ (- e))%Z).
  assert (HN : inject_Z n == inject_Z N * pow2 e).
  { unfold N. rewrite inject_Z_mult, <- pow2_inject by lia.
    unfold pow2. rewrite <- Qmult_assoc, <- Qpower_plus by discriminate.
    replace (- e + e)%Z with 0%Z by lia. simpl. ring. }
  assert (HK : (nearestEven (y / pow2 e) <= N - 1)%Z).
  { apply nearestEven_below. apply Qlt_shift_div_r; [exact Hp|].
    setoid_replace ((inject_Z N - (1 # 2)) * pow2 e)
      with (inject_Z N * pow2 e - pow2 e * (1 # 2)) by ring.
    rewrite <- HN. lra. }
  rewrite Zle_Qle in HK. unfold Z.sub in HK. rewrite inject_Z_plus in HK.
  change (inject_Z (- (1))) with (-1) in HK.
  apply Qle_lt_trans with (y := (inject_Z N + -1) * pow2 e).
  - apply Qmult_le_compat_r; [exact HK | lra].
  - setoid_replace ((inject_Z N + -1) * pow2 e)
      with (inject_Z N * pow2 e - pow2 e) by ring.
    rewrite <- HN. lra.
Qed.

(** The product of a double of [0, 1) and an integer [n] below 2^53, as
    computed in doubles, is below [n]: the largest double under 1 is
    1 - 2^-53, and [n - n * 2^-53] lies under the midpoint of [n] and the
    double before it. *)
Lemma dmul_below x n :
  (0 < n < 2 ^ 53)%Z -> 0 <= x -> x < 1 -> isDouble x ->
  0 <= dmul x (inject_Z n) /\ dmul x (inject_Z n) < inject_Z n.
Proof.
  intros Hn Hx0 Hx1 Hfix. unfold dmul. split.
  - apply roundDouble_nonneg. apply Qmult_le_0_compat; [exact Hx0|].
    change 0 with (inject_Z 0). rewrite <- Zle_Qle. lia.
  - apply roundDouble_below; [exact Hn | exact Hx0|].
    now apply double_below_one.
Qed.

(** *** The rounding error *)

Lemma nearestEven_near z :
  z - (1 # 2) <= inject_Z (nearestEven z)
  /\ inject_Z (nearestEven z) <= z + (1 # 2).
Proof.
  unfold nearestEven.
  pose proof (Qfloor_le z) as Hlo. pose proof (Qlt_floor z) as Hhi.
  rewrite inject_Z_plus in Hhi. change (inject_Z 1) with 1 in Hhi.
  destruct (Qcompare_spec (z - inject_Z (Qfloor z)) (1 # 2)) as [E | E | E].
  - destruct (Z.even (Qfloor z)).
    + split; lra.
    + rewrite inject_Z_plus. change (inject_Z 1) with 1. split; lra.
  - split; lra.
  - rewrite inject_Z_plus. change (inject_Z 1) with 1. split; lra.
Qed.

(** The rounding error on a number that is not negative: at most the
    relative error 2^-53, or 2^-1075 among the subnormal numbers. *)
Lemma roundDouble_error y :
  0 <= y ->
  y - (y * pow2 (-53) + pow2 (-1075)) <= roundDouble y
  /\ roundDouble y <= y + (y * pow2 (-53) + pow2 (-1075)).
Proof.
  intros Hy0. unfold roundDouble. rewrite Qred_correct.
  pose proof (Qred_correct y) as Hred. set (y' := Qred y) in *.
  pose proof (pow2_pos (-53)) as P53. pose proof (pow2_pos (-1075)) as P1075.
  assert (Hy0' : 0 <= y') by lra.
  assert (Hnn : 0 <= y * pow2 (-53)) by (apply Qmult_le_0_compat; lra).
  unfold roundReduced.
  destruct (Qeq_bool y' 0) eqn:E0.
  - apply Qeq_bool_iff in E0. split; lra.
  - assert (Hy : 0 < y').
    { destruct (Qeq_dec y' 0) as [H | H].
      - apply Qeq_bool_iff in H. congruence.
      - apply Qle_lteq in Hy0' as [H1 | H1]; [exact H1|].
        symmetry in H1. contradiction. }
    pose proof (pow2_binade_le y' Hy) as Hpb.
    unfold ulpExponent. rewrite (Qabs_of_pos y' Hy).
    set (e := Z.max (binade y' - 52) (-1074)).
    pose proof (pow2_pos e) as Hp.
    assert (Hhalf : pow2 e * (1 # 2) <= y * pow2 (-53) + pow2 (-1075)).
    { unfold e.
      destruct (Z.max_spec (binade y' - 52) (-1074)) as [[_ ->] | [_ ->]].
      - assert (Hs : pow2 (-1074) * (1 # 2) == pow2 (-1075)) by reflexivity.
        lra.
      - assert (Hs : pow2 (binade y' - 52)
                     == pow2 (binade y') * (1 # 4503599627370496)).
        { unfold pow2, Z.sub. rewrite Qpower_plus by discriminate.
          reflexivity. }
        assert (Hs' : pow2 (-53) == 1 # 9007199254740992) by reflexivity.
        rewrite Hs, Hs'. lra. }
    destruct (nearestEven_near (y' / pow2 e)) as [Klo Khi].
    set (K := inject_Z (nearestEven (y' / pow2 e))) in *.
    assert (Hlo : y' - pow2 e * (1 # 2) <= K * pow2 e).
    { setoid_replace (y' - pow2 e * (1 # 2))
        with ((y' / pow2 e - (1 # 2)) * pow2 e) by (field; lra).
      apply Qmult_le_compat_r; lra. }
    assert (Hhi : K * pow2 e <= y' + pow2 e * (1 # 2)).
    { setoid_replace (y' + pow2 e * (1 # 2))
        with ((y' / pow2 e + (1 # 2)) * pow2 e) by (field; lra).
      apply Qmult_le_compat_r; lra. }
    split; lra.
Qed.

(** The doubles of a decimal fraction behave as in the browser:
    [500.1 - 0.1] is [500], [10600.1 - 600.1] is [10000] and
    [0.05555555555555555 * 18] is [1]. *)
Example dsub_rounds :
  dsub (4398926120406221 # 8796093022208) (3602879701896397 # 36028797018963968)
  == 500
  /\ dsub (5827466602794189 # 549755813888) (5278535422627021 # 8796093022208)
     == 10000
  /\ dmul (2001599834386887 # 36028797018963968) 18 == 1
  /\ dadd (1 # 1) (1 # 9007199254740992) == 1
  /\ dadd (3602879701896397 # 36028797018963968)
          (3602879701896397 # 18014398509481984)
     == (1351079888211149 # 4503599627370496).
Proof. vm_compute. repeat split; reflexivity. Qed.

Lemma gt_true a b : gt a b = true <-> b < a.
Proof.
  unfold gt. rewrite negb_true_iff, <- not_true_iff_false, Qle_bool_iff.
  split; [apply Qnot_le_lt | apply Qlt_not_le].
Qed.

Lemma gt_false a b : gt a b = false <-> a <= b.
Proof. unfold gt. now rewrite negb_false_iff, Qle_bool_iff. Qed.

Lemma tracked_drawUI n f s :
  tracked f -> drawUI n f s = shiftBlock n f (panelBlock f (gestureBlock n f s)).
Proof.
  intros [Hcam Hface]. unfold drawUI. rewrite Hcam. simpl.
  destruct (facesLength f); [contradiction | reflexivity].
Qed.

Lemma panelBlock_sameGesture f s : sameGesture s (panelBlock f s).
Proof.
  unfold panelBlock, sameGesture.
  repeat branch; simpl; tauto.
Qed.

Lemma panelBlock_others f s :
  crtTVIndex (panelBlock f s) = crtTVIndex s
  /\ velocityYTime (panelBlock f s) = velocityYTime s
  /\ console (panelBlock f s) = console s.
Proof.
  unfold panelBlock.
  repeat branch; simpl; tauto.
Qed.

Lemma shiftBlock_sameGesture n f s : sameGesture s (shiftBlock n f s).
Proof.
  unfold shiftBlock, sameGesture.
  repeat branch; simpl; tauto.
Qed.

Lemma drawUI_gesture n f s :
  tracked f -> sameGesture (gestureBlock n f s) (drawUI n f s).
Proof.
  intros Ht. rewrite (tracked_drawUI _ _ _ Ht).
  destruct (shiftBlock_sameGesture n f (panelBlock f (gestureBlock n f s)))
    as (H1 & H2 & H3 & H4 & H5).
  destruct (panelBlock_sameGesture f (gestureBlock n f s))
    as (G1 & G2 & G3 & G4 & G5).
  unfold sameGesture. repeat split; congruence.
Qed.

Lemma untracked_drawUI n f s :
  ~ tracked f -> sameGesture s (drawUI n f s)
                 /\ crtTVIndex (drawUI n f s) = crtTVIndex s.
Proof.
  intros Hn. unfold drawUI, sameGesture.
  destruct (camReady f) eqn:Hcam; simpl; [|tauto].
  destruct (facesLength f) eqn:Hface; simpl; [tauto|].
  exfalso. apply Hn. split; [assumption | lia].
Qed.

(** What the gesture block does, in its three cases: it opens (speech
    starts), it gives up after ten seconds (speech stops, a random flower is
    picked), or it leaves the gesture and the selection as they are. *)
Lemma gestureBlock_cases n f s :
  let g := gestureBlock n f s in
  (mouthOpen s = false /\ distanceAbove (distance3_4 f) 3 = true
   /\ 500 < dsub (nowTime f) (mouthCloseTime s)
   /\ mouthOpen g = true /\ mouthOpenTime g = nowTime f
   /\ mouthCloseTime g = mouthCloseTime s
   /\ recCalls g = RecStart :: recCalls s
   /\ crtTVIndex g = crtTVIndex s)
  \/ (mouthOpen s = true /\ distanceAbove (distance3_4 f) 3 = false
      /\ 10000 < dsub (nowTime f) (mouthOpenTime s)
      /\ mouthOpen g = false /\ mouthOpenTime g = mouthOpenTime s
      /\ mouthCloseTime g = nowTime f
      /\ recCalls g = RecStop :: recCalls s
      /\ crtTVIndex g = randomIndex (rnd f) n
      /\ console g
         = LogDisplayingRandom (randomIndex (rnd f) n) :: LogNoMatch
             :: console s)
  \/ (mouthOpen g = mouthOpen s /\ mouthOpenTime g = mouthOpenTime s
      /\ mouthCloseTime g
         = (if distanceAbove (distance3_4 f) 3 then mouthCloseTime s
            else nowTime f)
      /\ recCalls g = recCalls s
      /\ crtTVIndex g = crtTVIndex s
      /\ console g = console s
      /\ ~ (mouthOpen s = false /\ distanceAbove (distance3_4 f) 3 = true
            /\ 500 < dsub (nowTime f) (mouthCloseTime s))
      /\ ~ (mouthOpen s = true /\ distanceAbove (distance3_4 f) 3 = false
            /\ 10000 < dsub (nowTime f) (mouthOpenTime s))).
Proof.
  unfold gestureBlock.
  destruct (distanceAbove (distance3_4 f) 3) eqn:Hd;
    destruct (mouthOpen s) eqn:Ho; simpl; rewrite ?Ho; simpl.
  - right; right.
    branch; simpl; repeat split; auto; intros (? & ? & ?); discriminate.
  - destruct (gt (dsub (nowTime f) (mouthCloseTime s)) 500) eqn:Hg; simpl.
    + left. apply gt_true in Hg. branch; simpl; repeat split; auto.
    + right; right. rewrite ?Ho. apply gt_false in Hg.
      branch; simpl; repeat split; auto;
        try (intros (? & ? & ?); discriminate);
        intros (_ & _ & H); apply Qlt_not_le in H; contradiction.
  - destruct (gt (dsub (nowTime f) (mouthOpenTime s)) 10000) eqn:Hg; simpl.
    + right; left. apply gt_true in Hg. repeat split; auto.
    + right; right. apply gt_false in Hg. repeat split; auto.
      * intros (? & ? & ?); discriminate.
      * intros (_ & _ & H). apply Qlt_not_le in H. contradiction.
  - right; right.
    destruct (mouthClose s); simpl; rewrite ?Ho; simpl; repeat split; auto;
      intros (? & ? & ?); discriminate.
Qed.

Lemma tracked_dec f : tracked f \/ ~ tracked f.
Proof.
  unfold tracked. destruct (camReady f); [|right; intros [? _]; discriminate].
  destruct (facesLength f); [right; intros [_ ?]; congruence|].
  left. split; [reflexivity | discriminate].
Qed.

(** One call of [drawUI], seen from the gesture. *)
Lemma drawUI_cases n f s :
  let s' := drawUI n f s in
  (opensOn f s
   /\ mouthOpen s' = true /\ mouthOpenTime s' = nowTime f
   /\ mouthCloseTime s' = mouthCloseTime s
   /\ recCalls s' = RecStart :: recCalls s)
  \/ (timesOutOn f s
      /\ mouthOpen s' = false /\ mouthOpenTime s' = mouthOpenTime s
      /\ mouthCloseTime s' = nowTime f
      /\ recCalls s' = RecStop :: recCalls s)
  \/ (~ opensOn f s /\ ~ timesOutOn f s
      /\ mouthOpen s' = mouthOpen s /\ mouthOpenTime s' = mouthOpenTime s
      /\ recCalls s' = recCalls s
      /\ (tracked f ->
          mouthCloseTime s'
          = if distanceAbove (distance3_4 f) 3 then mouthCloseTime s
            else nowTime f)).
Proof.
  intros s'. subst s'. destruct (tracked_dec f) as [Ht | Hn].
  - destruct (drawUI_gesture n f s Ht) as (E1 & _ & E3 & E4 & E5).
    rewrite E1, E3, E4, E5.
    destruct (gestureBlock_cases n f s)
      as [(A & B & C & D & E & F & G & _)
         | [(A & B & C & D & E & F & G & _)
           | (A & B & C & D & _ & _ & N1 & N2)]].
    + left. unfold opensOn. tauto.
    + right; left. unfold timesOutOn. tauto.
    + right; right. unfold opensOn, timesOutOn. tauto.
  - destruct (untracked_drawUI n f s Hn) as ((E1 & _ & E3 & E4 & E5) & _).
    right; right. unfold opensOn, timesOutOn. tauto.
Qed.

Lemma drawUI_opens n f s : opens s (drawUI n f s) = true <-> opensOn f s.
Proof.
  unfold opens.
  destruct (drawUI_cases n f s)
    as [(A & B & _) | [(A & B & _) | (N1 & N2 & B & _)]].
  - destruct A as (? & Ho & ?). rewrite B, Ho. simpl.
    unfold opensOn. tauto.
  - destruct A as (? & Ho & ?). rewrite Ho. simpl.
    split; [discriminate|]. intros (_ & Hx & _). congruence.
  - rewrite B. destruct (mouthOpen s); simpl; split;
      try discriminate; tauto.
Qed.

Lemma drawUI_closes n f s : closes s (drawUI n f s) = true <-> timesOutOn f s.
Proof.
  unfold closes.
  destruct (drawUI_cases n f s)
    as [(A & B & _) | [(A & B & _) | (N1 & N2 & B & _)]].
  - destruct A as (? & Ho & ?). rewrite Ho. simpl.
    split; [discriminate|]. intros (_ & Hx & _). congruence.
  - destruct A as (? & Ho & ?). rewrite B, Ho. simpl.
    unfold timesOutOn. tauto.
  - rewrite B. destruct (mouthOpen s); simpl; split;
      try discriminate; tauto.
Qed.

Lemma drawUI_starts n f s :
  starts (drawUI n f s)
  = (starts s + if opens s (drawUI n f s) then 1 else 0)%nat.
Proof.
  destruct (opens s (drawUI n f s)) eqn:E.
  - apply drawUI_opens in E.
    destruct (drawUI_cases n f s)
      as [(_ & _ & _ & _ & R) | [(A & _) | (N1 & _)]].
    + unfold starts. rewrite R. simpl. lia.
    + destruct A as (_ & Ho & _). destruct E as (_ & Hc & _). congruence.
    + contradiction.
  - assert (N : ~ opensOn f s)
      by (rewrite <- drawUI_opens with (n := n); congruence).
    destruct (drawUI_cases n f s)
      as [(A & _) | [(_ & _ & _ & _ & R) | (_ & _ & _ & _ & R & _)]].
    + contradiction.
    + unfold starts. rewrite R. simpl. lia.
    + unfold starts. rewrite R. lia.
Qed.

Lemma drawUI_stops n f s :
  stops (drawUI n f s)
  = (stops s + if closes s (drawUI n f s) then 1 else 0)%nat.
Proof.
  destruct (closes s (drawUI n f s)) eqn:E.
  - apply drawUI_closes in E.
    destruct (drawUI_cases n f s)
      as [(A & _) | [(_ & _ & _ & _ & R) | (_ & N2 & _)]].
    + destruct A as (_ & Ho & _). destruct E as (_ & Hc & _). congruence.
    + unfold stops. rewrite R. simpl. lia.
    + contradiction.
  - assert (N : ~ timesOutOn f s)
      by (rewrite <- drawUI_closes with (n := n); congruence).
    destruct (drawUI_cases n f s)
      as [(_ & _ & _ & _ & R) | [(A & _) | (_ & _ & _ & _ & R & _)]].
    + unfold stops. rewrite R. simpl. lia.
    + contradiction.
    + unfold stops. rewrite R. lia.
Qed.

(** [showResult] ends the listening state and makes no recogniser call. *)
Lemma showResult_gesture names n r s :
  let s' := showResult names n r s in
  recCalls s' = recCalls s
  /\ mouthOpenTime s' = mouthOpenTime s
  /\ (resultValue r = true ->
      mouthOpen s' = false /\ mouthCloseTime s' = speechTime r)
  /\ (resultValue r = false -> s' = s).
Proof.
  unfold showResult. destruct (resultValue r); simpl.
  - destruct (search _ names) as [[i e]|]; branch; simpl;
      repeat split; auto; discriminate.
  - repeat split; auto; discriminate.
Qed.

(** ** Gesture transitions along a run *)

Lemma step_opens names n s e :
  starts (step names n s e)
  = (starts s + if opens s (step names n s e) then 1 else 0)%nat.
Proof.
  destruct e as [f | r]; simpl; [apply drawUI_starts|].
  destruct (showResult_gesture names n r s) as (R & _ & Ht & Hf).
  unfold starts, opens. rewrite R.
  destruct (resultValue r).
  - destruct (Ht eq_refl) as [-> _]. rewrite andb_false_r. lia.
  - rewrite (Hf eq_refl). destruct (mouthOpen s); simpl; lia.
Qed.

Lemma step_balance names n s e :
  ((if opens s (step names n s e) then 1 else 0) + Nat.b2n (mouthOpen s)
   = (if closes s (step names n s e) then 1 else 0)
     + Nat.b2n (mouthOpen (step names n s e)))%nat.
Proof.
  unfold opens, closes.
  destruct (mouthOpen s), (mouthOpen (step names n s e)); reflexivity.
Qed.

Lemma run_starts names n es :
  forall s,
    starts (run names n s es) = (starts s + openings names n s es)%nat
    /\ (openings names n s es + Nat.b2n (mouthOpen s)
        = closings names n s es + Nat.b2n (mouthOpen (run names n s es)))%nat.
Proof.
  induction es as [|e es IH]; intros s; simpl.
  - split; lia.
  - destruct (IH (step names n s e)) as [IH1 IH2].
    fold (run names n (step names n s e) es).
    rewrite IH1, step_opens.
    pose proof (step_balance names n s e). split; lia.
Qed.

(** C9: [myRec.start()] is called on the frame that takes the gesture from
    closed to open and on no other: never while the gesture is open.
    [myRec.stop()] is called only on a frame that takes it from open to
    closed: never while it is closed.  A frame that follows an opening
    frame adds no second start.  Along any run of frames and speech results
    the starts are the closed-to-open transitions, and these exceed the
    open-to-closed transitions by one when the run ends open and by none
    when it ends closed (counted from a closed state). *)
Theorem C9_edge_triggered :
  forall (names : list (list string)) (n : Z),
    (forall f s, mouthOpen s = true ->
                 starts (drawUI n f s) = starts s
                 /\ opens s (drawUI n f s) = false)
    /\ (forall f s, mouthOpen s = false ->
                    stops (drawUI n f s) = stops s
                    /\ closes s (drawUI n f s) = false)
    /\ (forall f s,
           starts (drawUI n f s)
           = (starts s + if opens s (drawUI n f s) then 1 else 0)%nat
           /\ stops (drawUI n f s)
              = (stops s + if closes s (drawUI n f s) then 1 else 0)%nat)
    /\ (forall f1 f2 s,
           opens s (drawUI n f1 s) = true ->
           starts (drawUI n f2 (drawUI n f1 s)) = (starts s + 1)%nat)
    /\ (forall s es,
           starts (run names n s es) = (starts s + openings names n s es)%nat
           /\ (openings names n s es + Nat.b2n (mouthOpen s)
               = closings names n s es
                 + Nat.b2n (mouthOpen (run names n s es)))%nat).
Proof.
  intros names n. repeat split.
  - rewrite drawUI_starts. unfold opens. rewrite H. simpl. lia.
  - unfold opens. now rewrite H.
  - rewrite drawUI_stops. unfold closes. rewrite H. simpl. lia.
  - unfold closes. now rewrite H.
  - apply drawUI_starts.
  - apply drawUI_stops.
  - intros f1 f2 s Ho. rewrite drawUI_starts, drawUI_starts, Ho.
    unfold opens in *. apply andb_prop in Ho as [_ Ho]. rewrite Ho. simpl. lia.
  - apply run_starts.
  - apply run_starts.
Qed.

Lemma C9_edge_triggered_witness :
  starts (drawUI 18 (mouthFrame 700 4) (drawUI 18 (mouthFrame 600 4) initialState))
  = (starts initialState + 1)%nat.
Proof.
  apply (proj1 (proj2 (proj2 (proj2 (C9_edge_triggered crtTVNames 18))))
               (mouthFrame 600 4) (mouthFrame 700 4) initialState).
  vm_compute. reflexivity.
Defined.

(** ** The debouncer on a sampled sequence *)

(** A frame with the mouth at or under the threshold, met in the closed
    state, keeps it closed and stamps [mouthCloseTime]. *)
Lemma closed_sample n f s :
  tracked f -> mouthOpen s = false ->
  distanceAbove (distance3_4 f) 3 = false ->
  mouthOpen (drawUI n f s) = false
  /\ mouthCloseTime (drawUI n f s) = nowTime f
  /\ recCalls (drawUI n f s) = recCalls s.
Proof.
  intros Ht Ho Hd.
  destruct (drawUI_cases n f s)
    as [((_ & _ & A & _) & _)
       | [((_ & A & _) & _) | (_ & _ & E1 & _ & E2 & E3)]];
    try congruence.
  specialize (E3 Ht). rewrite Hd in E3. repeat split; congruence.
Qed.

(** A frame with the mouth over the threshold, met in the closed state no
    more than 500 ms after [mouthCloseTime], changes nothing. *)
Lemma held_sample n f s :
  tracked f -> mouthOpen s = false ->
  distanceAbove (distance3_4 f) 3 = true ->
  dsub (nowTime f) (mouthCloseTime s) <= 500 ->
  mouthOpen (drawUI n f s) = false
  /\ mouthCloseTime (drawUI n f s) = mouthCloseTime s
  /\ recCalls (drawUI n f s) = recCalls s.
Proof.
  intros Ht Ho Hd Hle.
  destruct (drawUI_cases n f s)
    as [((_ & _ & _ & A) & _)
       | [((_ & A & _) & _) | (_ & _ & E1 & _ & E2 & E3)]].
  - apply Qlt_not_le in A. contradiction.
  - congruence.
  - specialize (E3 Ht). rewrite Hd in E3. repeat split; congruence.
Qed.

(** C2, as the code has it: there is one threshold, 3, and no separate
    close threshold; [mouthCloseTime] is stamped on every frame whose gap is
    at or under it.  On the gaps 1,1,4,4,1,1 sampled 100 ms apart from a
    closed state the gesture never opens: no closed-to-open and no
    open-to-closed transition, and no [myRec.start()].  A frame opens the
    gesture exactly when a face is tracked, the gesture is closed, the gap
    is over 3 and the difference between its time and [mouthCloseTime], as
    the code computes it in doubles, is over 500; more than 500 ms have
    then passed since [mouthCloseTime].  Every tracked frame with the gap
    at or under 3 sets [mouthCloseTime] to its own time. *)
Theorem C2_debounce_sequence :
  forall (names : list (list string)) (n : Z),
    (forall t0 s fs,
        mouthOpen s = false ->
        samples t0 100 [1; 1; 4; 4; 1; 1] fs ->
        openings names n s (map Tick fs) = 0%nat
        /\ closings names n s (map Tick fs) = 0%nat
        /\ mouthOpen (run names n s (map Tick fs)) = false
        /\ starts (run names n s (map Tick fs)) = starts s)
    /\ (forall f s,
           opens s (drawUI n f s) = true
           <-> tracked f /\ mouthOpen s = false
               /\ distanceAbove (distance3_4 f) 3 = true
               /\ 500 < dsub (nowTime f) (mouthCloseTime s))
    /\ (forall f s,
           tracked f -> distanceAbove (distance3_4 f) 3 = false ->
           mouthCloseTime (drawUI n f s) = nowTime f)
    /\ (forall f s,
           opens s (drawUI n f s) = true ->
           mouthCloseTime s + 500 < nowTime f).
Proof.
  intros names n.
  split; [|split; [intros f s; apply drawUI_opens|split]].
  2:{ intros f s Ht Hd.
      destruct (drawUI_cases n f s)
        as [((_ & _ & A & _) & _) | [(_ & _ & _ & E & _) | (_ & _ & _ & _ & _ & E)]].
      - congruence.
      - exact E.
      - rewrite (E Ht), Hd. reflexivity. }
  2:{ intros f s Ho. apply drawUI_opens in Ho.
      destruct Ho as (_ & _ & _ & Hlate).
      destruct (Qlt_le_dec (mouthCloseTime s + 500) (nowTime f))
        as [Hok | Hearly]; [exact Hok|].
      assert (Hle : dsub (nowTime f) (mouthCloseTime s) <= 500)
        by (apply dsub_le; [lra | lra | vm_compute; reflexivity]).
      lra. }
  intros t0 s fs Ho Hs.
  assert (Hbal := run_starts names n (map Tick fs) s).
  destruct fs as [|f1 [|f2 [|f3 [|f4 [|f5 [|f6 [|f7 fs]]]]]]];
    simpl in Hs; try tauto.
  destruct Hs as (T1 & N1 & (q1 & D1 & Q1) & T2 & N2 & (q2 & D2 & Q2)
                  & T3 & N3 & (q3 & D3 & Q3) & T4 & N4 & (q4 & D4 & Q4)
                  & T5 & N5 & (q5 & D5 & Q5) & T6 & N6 & (q6 & D6 & Q6) & _).
  assert (Hlow : forall q, q == 1 -> distanceAbove (Some q) 3 = false)
    by (intros q Hq; apply gt_false; lra).
  assert (Hhigh : forall q, q == 4 -> distanceAbove (Some q) 3 = true)
    by (intros q Hq; apply gt_true; lra).
  destruct (closed_sample n f1 s T1 Ho) as (O1 & C1 & _);
    [rewrite D1; auto|].
  set (s1 := drawUI n f1 s) in *.
  destruct (closed_sample n f2 s1 T2 O1) as (O2 & C2 & _);
    [rewrite D2; auto|].
  set (s2 := drawUI n f2 s1) in *.
  destruct (held_sample n f3 s2 T3 O2) as (O3 & C3 & _);
    [rewrite D3; auto | rewrite C2;
       apply dsub_le; [lra | lra | vm_compute; reflexivity] |].
  set (s3 := drawUI n f3 s2) in *.
  destruct (held_sample n f4 s3 T4 O3) as (O4 & C4 & _);
    [rewrite D4; auto | rewrite C3, C2;
       apply dsub_le; [lra | lra | vm_compute; reflexivity] |].
  set (s4 := drawUI n f4 s3) in *.
  destruct (closed_sample n f5 s4 T5 O4) as (O5 & C5 & _);
    [rewrite D5; auto|].
  set (s5 := drawUI n f5 s4) in *.
  destruct (closed_sample n f6 s5 T6 O5) as (O6 & C6 & _);
    [rewrite D6; auto|].
  set (s6 := drawUI n f6 s5) in *.
  assert (Hop : openings names n s (map Tick [f1; f2; f3; f4; f5; f6]) = 0%nat).
  { simpl. fold s1 s2 s3 s4 s5 s6. unfold opens.
    rewrite O1, O2, O3, O4, O5, O6. now rewrite !andb_false_r. }
  assert (Hcl : closings names n s (map Tick [f1; f2; f3; f4; f5; f6]) = 0%nat).
  { simpl. fold s1 s2 s3 s4 s5 s6. unfold closes.
    now rewrite Ho, O1, O2, O3, O4, O5. }
  destruct Hbal as [Hst _]. rewrite Hop in Hst.
  repeat split; auto.
  rewrite Hst. lia.
Qed.

Lemma C2_debounce_sequence_witness :
  openings crtTVNames 18 initialState
           (map Tick (sampled 0 100 [1; 1; 4; 4; 1; 1])) = 0%nat
  /\ closings crtTVNames 18 initialState
              (map Tick (sampled 0 100 [1; 1; 4; 4; 1; 1])) = 0%nat
  /\ mouthOpen (run crtTVNames 18 initialState
                    (map Tick (sampled 0 100 [1; 1; 4; 4; 1; 1]))) = false
  /\ starts (run crtTVNames 18 initialState
                 (map Tick (sampled 0 100 [1; 1; 4; 4; 1; 1])))
     = starts initialState.
Proof.
  apply (proj1 (C2_debounce_sequence crtTVNames 18) 0 initialState).
  - reflexivity.
  - simpl. unfold tracked. simpl.
    repeat split; try discriminate; eexists; split; reflexivity.
Defined.

(** C2 as stated fails: on the gaps 1,1,4,4,1,1 sampled 100 ms apart from
    the initial closed state the count of closed-to-open transitions is 0,
    not 1, and so is the count of open-to-closed transitions. *)
Lemma C2_no_transition_on_sequence :
  openings crtTVNames 18 initialState
           (map Tick (sampled 0 100 [1; 1; 4; 4; 1; 1])) <> 1%nat
  /\ closings crtTVNames 18 initialState
              (map Tick (sampled 0 100 [1; 1; 4; 4; 1; 1])) <> 1%nat.
Proof. split; vm_compute; discriminate. Qed.

(** The difference that counts is the computed one: with [mouthCloseTime]
    the double 0.1 and a frame read at the double 500.1, more than 500 ms
    lie between the two, yet [500.1 - 0.1] computes to 500 and the frame
    does not open the gesture, whereas a frame read at 501 does. *)
Example opening_at_computed_500 :
  let s := set_mouthCloseTime (3602879701896397 # 36028797018963968)
                              initialState in
  let f := mouthFrame (4398926120406221 # 8796093022208) 4 in
  mouthCloseTime s + 500 < nowTime f
  /\ dsub (nowTime f) (mouthCloseTime s) == 500
  /\ opens s (drawUI 18 f s) = false
  /\ starts (drawUI 18 f s) = 0%nat
  /\ opens s (drawUI 18 (mouthFrame 501 4) s) = true.
Proof. vm_compute. repeat split; reflexivity. Qed.

(** ** Giving up after ten seconds *)

(** While the mouth gap stays over the threshold an open gesture stays
    open and [myRec.stop()] is not called. *)
Lemma open_mouth_stays_open names n fs :
  forall s,
    mouthOpen s = true ->
    Forall (fun f => distanceAbove (distance3_4 f) 3 = true) fs ->
    mouthOpen (run names n s (map Tick fs)) = true
    /\ stops (run names n s (map Tick fs)) = stops s
    /\ closings names n s (map Tick fs) = 0%nat.
Proof.
  induction fs as [|f fs IH]; intros s Ho Hall; simpl.
  - repeat split; auto.
  - inversion Hall as [|? ? Hd Hrest]; subst.
    assert (Hno : closes s (drawUI n f s) = false).
    { apply not_true_iff_false. rewrite drawUI_closes.
      intros (_ & _ & H & _). congruence. }
    assert (Ho' : mouthOpen (drawUI n f s) = true).
    { unfold closes in Hno. rewrite Ho in Hno. simpl in Hno.
      now apply negb_false_iff in Hno. }
    destruct (IH (drawUI n f s) Ho' Hrest) as (I1 & I2 & I3).
    fold (run names n (drawUI n f s) (map Tick fs)).
    rewrite I1, I2, I3, Hno, drawUI_stops, Hno. repeat split; lia.
Qed.

(** Where the ten-second check sits: in the branch taken when the mouth
    gap is at or under the threshold.  A frame closes the gesture exactly
    when a face is tracked, the gesture is open, the gap is at or under 3
    and the difference between its time and [mouthOpenTime], as the code
    computes it in doubles, is over 10000; it then stops the recogniser,
    logs the miss and picks a random flower.  So the gesture is never
    force-closed until more than 10000 ms have passed since the opening;
    and while the gap stays over the threshold it is not force-closed at
    all, however long that lasts. *)
Theorem give_up_after_ten_seconds :
  forall (names : list (list string)) (n : Z),
    (forall f s,
        closes s (drawUI n f s) = true
        <-> tracked f /\ mouthOpen s = true
            /\ distanceAbove (distance3_4 f) 3 = false
            /\ 10000 < dsub (nowTime f) (mouthOpenTime s))
    /\ (forall f s,
           closes s (drawUI n f s) = true ->
           mouthOpenTime s + 10000 < nowTime f
           /\ recCalls (drawUI n f s) = RecStop :: recCalls s
           /\ crtTVIndex (gestureBlock n f s) = randomIndex (rnd f) n
           /\ console (gestureBlock n f s)
              = LogDisplayingRandom (randomIndex (rnd f) n) :: LogNoMatch
                  :: console s)
    /\ (forall s fs,
           mouthOpen s = true ->
           Forall (fun f => distanceAbove (distance3_4 f) 3 = true) fs ->
           mouthOpen (run names n s (map Tick fs)) = true
           /\ stops (run names n s (map Tick fs)) = stops s
           /\ closings names n s (map Tick fs) = 0%nat).
Proof.
  intros names n. split; [|split].
  - intros f s. apply drawUI_closes.
  - intros f s Hc. apply drawUI_closes in Hc.
    destruct Hc as (Ht & Ho & Hd & Hlate).
    split.
    { destruct (Qlt_le_dec (mouthOpenTime s + 10000) (nowTime f))
        as [Hok | Hearly]; [exact Hok|].
      assert (Hle : dsub (nowTime f) (mouthOpenTime s) <= 10000)
        by (apply dsub_le; [lra | lra | vm_compute; reflexivity]).
      lra. }
    destruct (drawUI_cases n f s)
      as [((_ & A & _) & _) | [(_ & _ & _ & _ & R) | (_ & N & _)]].
    + congruence.
    + split; [exact R|].
      destruct (gestureBlock_cases n f s)
        as [(A & _) | [(_ & _ & _ & _ & _ & _ & _ & I & L) | (_ & _ & _ & _ & _ & _ & _ & N)]].
      * congruence.
      * now split.
      * exfalso. apply N. tauto.
    + exfalso. apply N. unfold timesOutOn. tauto.
  - intros s fs. apply open_mouth_stays_open.
Qed.

Lemma give_up_after_ten_seconds_at_30s :
  mouthOpen (run crtTVNames 18 (drawUI 18 (mouthFrame 600 4) initialState)
                 (map Tick (sampled 1600 1000 (repeat 4 30)))) = true
  /\ stops (run crtTVNames 18 (drawUI 18 (mouthFrame 600 4) initialState)
                (map Tick (sampled 1600 1000 (repeat 4 30))))
     = stops (drawUI 18 (mouthFrame 600 4) initialState)
  /\ closings crtTVNames 18 (drawUI 18 (mouthFrame 600 4) initialState)
              (map Tick (sampled 1600 1000 (repeat 4 30))) = 0%nat.
Proof.
  apply (proj2 (proj2 (give_up_after_ten_seconds crtTVNames 18))).
  - reflexivity.
  - simpl. repeat constructor.
Defined.

(** C3 on a mouth held open: the gesture opens at 600 ms and the mouth gap
    then stays at 4, over the threshold, on frames one second apart up to
    30600 ms.  The sketch's comment reads "Stop speech recognition after 10
    seconds of open mouth", yet after the last frame, thirty seconds after
    the opening, the gesture is still open and [myRec.stop()] has not been
    called: the only recogniser call is the start. *)
Lemma C3_open_mouth_never_times_out :
  let s1 := drawUI 18 (mouthFrame 600 4) initialState in
  let s2 := run crtTVNames 18 s1
                (map Tick (sampled 1600 1000 (repeat 4 30))) in
  mouthOpen initialState = false
  /\ mouthOpen s1 = true /\ mouthOpenTime s1 = 600
  /\ nowTime (last (sampled 1600 1000 (repeat 4 30)) (mouthFrame 0 0))
     == 30600
  /\ mouthOpen s2 = true /\ stops s2 = 0%nat
  /\ recCalls s2 = [RecStart].
Proof. vm_compute. repeat split; congruence. Qed.

(** ** The random fallback *)

Lemma Qfloor_eq_iff (x : Q) (i : Z) :
  Qfloor x = i <-> inject_Z i <= x /\ x < inject_Z i + 1.
Proof.
  split.
  - intros <-. split; [apply Qfloor_le|].
    pose proof (Qlt_floor x) as H. rewrite inject_Z_plus in H. exact H.
  - intros [Hlo Hhi].
    assert (H1 : (i <= Qfloor x)%Z).
    { rewrite <- (Qfloor_Z i). now apply Qfloor_resp_le. }
    assert (H2 : (Qfloor x < i + 1)%Z).
    { rewrite Zlt_Qlt, inject_Z_plus.
      apply Qle_lt_trans with (y := x); [apply Qfloor_le | exact Hhi]. }
    lia.
Qed.

Lemma randomIndex_range rnd n :
  0 <= rnd -> dmul rnd (inject_Z n) < inject_Z n -> (0 < n)%Z ->
  exists i, randomIndex rnd n = Int i /\ (0 <= i < n)%Z.
Proof.
  intros H0 H1 Hn. exists (Qfloor (dmul rnd (inject_Z n))).
  split; [reflexivity|].
  assert (Hn' : 0 < inject_Z n)
    by (change (inject_Z 0 < inject_Z n); now rewrite <- Zlt_Qlt).
  assert (Hv : 0 <= dmul rnd (inject_Z n)).
  { unfold dmul. apply roundDouble_nonneg.
    apply Qmult_le_0_compat; [exact H0 | now apply Qlt_le_weak]. }
  split.
  - rewrite <- (Qfloor_Z 0). apply Qfloor_resp_le.
    change (inject_Z 0) with 0. exact Hv.
  - rewrite Zlt_Qlt.
    apply Qle_lt_trans with (y := dmul rnd (inject_Z n));
      [apply Qfloor_le | exact H1].
Qed.

(** Index [i] is picked exactly when [random(n)], the double product
    [rnd * n], lies in [i, i + 1): every index has an interval of the
    same length. *)
Lemma randomIndex_interval rnd n i :
  randomIndex rnd n = Int i
  <-> inject_Z i <= dmul rnd (inject_Z n)
      /\ dmul rnd (inject_Z n) < inject_Z i + 1.
Proof.
  unfold randomIndex. rewrite <- Qfloor_eq_iff. split; congruence.
Qed.

Lemma gestureBlock_velocityYTime n f s :
  velocityYTime (gestureBlock n f s) = velocityYTime s.
Proof. unfold gestureBlock. repeat branch; reflexivity. Qed.

Lemma shift_up n i :
  (0 < n)%Z -> (0 <= i < n)%Z ->
  jsRem (jsAdd (Int i) 1) n = Int ((i + 1) mod n).
Proof.
  intros Hn Hi. simpl. destruct (Z.eqb_spec n 0); [lia|].
  now rewrite Z.rem_mod_nonneg by lia.
Qed.

Lemma shift_down n i :
  (0 < n)%Z -> (0 <= i < n)%Z ->
  jsRem (jsAdd (jsAdd (Int i) (-1)) n) n = Int ((i - 1) mod n).
Proof.
  intros Hn Hi. simpl. destruct (Z.eqb_spec n 0); [lia|].
  rewrite Z.rem_mod_nonneg by lia.
  replace (i + -1 + n)%Z with (i - 1 + 1 * n)%Z by lia.
  now rewrite Z.mod_add by lia.
Qed.

Lemma shiftBlock_range n f s :
  (0 < n)%Z -> inRange n (crtTVIndex s) ->
  inRange n (crtTVIndex (shiftBlock n f s)).
Proof.
  intros Hn (i & Hi & Hr). unfold shiftBlock.
  repeat branch; simpl; rewrite ?Hi.
  - rewrite shift_up by assumption. eexists. split; [reflexivity|].
    apply Z.mod_pos_bound. exact Hn.
  - rewrite shift_down by assumption. eexists. split; [reflexivity|].
    apply Z.mod_pos_bound. exact Hn.
  - now exists i.
Qed.

Lemma drawUI_range n f s :
  (0 < n)%Z -> 0 <= rnd f -> dmul (rnd f) (inject_Z n) < inject_Z n ->
  inRange n (crtTVIndex s) -> inRange n (crtTVIndex (drawUI n f s)).
Proof.
  intros Hn H0 H1 Hr. destruct (tracked_dec f) as [Ht | Hu].
  - rewrite (tracked_drawUI _ _ _ Ht). apply shiftBlock_range; [exact Hn|].
    destruct (panelBlock_others f (gestureBlock n f s)) as (-> & _).
    destruct (gestureBlock_cases n f s)
      as [(_ & _ & _ & _ & _ & _ & _ & E)
         | [(_ & _ & _ & _ & _ & _ & _ & E & _)
           | (_ & _ & _ & _ & E & _)]]; rewrite E; auto.
    now apply randomIndex_range.
  - destruct (untracked_drawUI n f s Hu) as (_ & ->). exact Hr.
Qed.

Lemma showResult_nomatch names n r s :
  resultValue r = true ->
  foundIndex (splitWords (resultString r)) names = (-1)%Z ->
  crtTVIndex (showResult names n r s) = randomIndex (speechRnd r) n
  /\ pg (showResult names n r s) = pgMissHear.
Proof.
  intros Hv Hf. unfold showResult. rewrite Hv. unfold foundIndex in *.
  destruct (search (splitWords (resultString r)) names) as [[i e]|].
  - lia.
  - split; reflexivity.
Qed.

(** The give-up path of the gesture block: met with the gesture open, a
    mouth gap at or under 3 and a computed difference to [mouthOpenTime]
    over 10000, it stops the recogniser and picks the random flower. *)
Lemma gestureBlock_gives_up n f s :
  mouthOpen s = true ->
  distanceAbove (distance3_4 f) 3 = false ->
  10000 < dsub (nowTime f) (mouthOpenTime s) ->
  crtTVIndex (gestureBlock n f s) = randomIndex (rnd f) n
  /\ recCalls (gestureBlock n f s) = RecStop :: recCalls s
  /\ mouthOpen (gestureBlock n f s) = false.
Proof.
  intros Ho Hd Hlate. apply gt_true in Hlate.
  unfold gestureBlock. rewrite Hd, Ho. simpl. rewrite Ho. simpl.
  rewrite Hlate. simpl. repeat split.
Qed.

(** C7: when no synonym matches a speech result, and when the controller
    gives up after ten seconds, [crtTVIndex] is set to
    [floor(random(n))], the same expression in both places.  The value
    does not depend on the index held before; with [random(n)] in [0, n),
    as p5 delivers it, it lies in [0, n); and index [i] is the one picked
    exactly when [random(n)] lies in [i, i + 1), so each index has an
    interval of the same length.  On the give-up frame the recogniser is
    stopped and the index is still in range when [drawUI] returns.
    [random(n)] is in [0, n) whenever the generator's value is a double of
    [0, 1) and [n] is below 2^53, as an array length is; and it is the
    exact product of that value and [n] up to the rounding error, so the
    values of the generator that pick index [i] are those of
    [i / n, (i + 1) / n) up to a relative error of 2^-53. *)
Theorem C7_random_fallback :
  forall (names : list (list string)) (n : Z),
    (0 < n)%Z ->
    (forall r s,
        resultValue r = true ->
        foundIndex (splitWords (resultString r)) names = (-1)%Z ->
        0 <= speechRnd r ->
        dmul (speechRnd r) (inject_Z n) < inject_Z n ->
        crtTVIndex (showResult names n r s) = randomIndex (speechRnd r) n
        /\ inRange n (crtTVIndex (showResult names n r s)))
    /\ (forall f s,
           tracked f -> mouthOpen s = true ->
           distanceAbove (distance3_4 f) 3 = false ->
           10000 < dsub (nowTime f) (mouthOpenTime s) ->
           0 <= rnd f ->
           dmul (rnd f) (inject_Z n) < inject_Z n ->
           crtTVIndex (gestureBlock n f s) = randomIndex (rnd f) n
           /\ recCalls (drawUI n f s) = RecStop :: recCalls s
           /\ mouthOpen (drawUI n f s) = false
           /\ inRange n (crtTVIndex (gestureBlock n f s))
           /\ inRange n (crtTVIndex (drawUI n f s)))
    /\ (forall x i,
           randomIndex x n = Int i
           <-> inject_Z i <= dmul x (inject_Z n)
               /\ dmul x (inject_Z n) < inject_Z i + 1)
    /\ (forall x,
           (n < 2 ^ 53)%Z -> 0 <= x -> x < 1 -> isDouble x ->
           0 <= dmul x (inject_Z n)
           /\ dmul x (inject_Z n) < inject_Z n
           /\ inRange n (randomIndex x n))
    /\ (forall x i,
           0 <= x -> randomIndex x n = Int i ->
           inject_Z i
           <= x * inject_Z n * (1 + pow2 (-53)) + pow2 (-1075)
           /\ x * inject_Z n * (1 - pow2 (-53)) - pow2 (-1075)
              < inject_Z i + 1).
Proof.
  intros names n Hn. split; [|split; [|split; [|split]]].
  5:{ intros x i H0 Hi. apply randomIndex_interval in Hi as [Hlo Hhi].
      assert (Hy : 0 <= x * inject_Z n).
      { apply Qmult_le_0_compat; [exact H0|].
        change 0 with (inject_Z 0). rewrite <- Zle_Qle. lia. }
      destruct (roundDouble_error (x * inject_Z n) Hy) as [Elo Ehi].
      fold (dmul x (inject_Z n)) in Elo, Ehi.
      split; lra. }
  4:{ intros x Hbig H0 H1 Hd.
      destruct (dmul_below x n (conj Hn Hbig) H0 H1 Hd) as [Hlo Hhi].
      repeat split; [exact Hlo | exact Hhi|].
      now apply randomIndex_range. }
  - intros r s Hv Hf H0 H1.
    destruct (showResult_nomatch names n r s Hv Hf) as [E _].
    split; [exact E|]. rewrite E. now apply randomIndex_range.
  - intros f s Ht Ho Hd Hlate H0 H1.
    destruct (gestureBlock_gives_up n f s Ho Hd Hlate) as (E & R & O).
    destruct (drawUI_gesture n f s Ht) as (G1 & _ & _ & _ & G5).
    assert (Hr : inRange n (crtTVIndex (gestureBlock n f s)))
      by (rewrite E; now apply randomIndex_range).
    repeat split; try congruence; auto.
    rewrite (tracked_drawUI _ _ _ Ht). apply shiftBlock_range; [exact Hn|].
    now destruct (panelBlock_others f (gestureBlock n f s)) as (-> & _).
  - intros x i. apply randomIndex_interval.
Qed.

Lemma C7_random_fallback_witness :
  (crtTVIndex (showResult crtTVNames 18
                 (mkSpeech true "show me a cactus" 4000 (3 # 4))
                 initialState)
   = randomIndex (3 # 4) 18
   /\ inRange 18 (crtTVIndex (showResult crtTVNames 18
                    (mkSpeech true "show me a cactus" 4000 (3 # 4))
                    initialState)))
  /\ (crtTVIndex (gestureBlock 18 (mkFrame true 1 10700 (Some 1) 0 (3 # 4))
                   (drawUI 18 (mouthFrame 600 4) initialState))
      = randomIndex (3 # 4) 18
      /\ recCalls (drawUI 18 (mkFrame true 1 10700 (Some 1) 0 (3 # 4))
                     (drawUI 18 (mouthFrame 600 4) initialState))
         = RecStop :: recCalls (drawUI 18 (mouthFrame 600 4) initialState)
      /\ mouthOpen (drawUI 18 (mkFrame true 1 10700 (Some 1) 0 (3 # 4))
                      (drawUI 18 (mouthFrame 600 4) initialState)) = false
      /\ inRange 18
           (crtTVIndex (gestureBlock 18
                          (mkFrame true 1 10700 (Some 1) 0 (3 # 4))
                          (drawUI 18 (mouthFrame 600 4) initialState)))
      /\ inRange 18
           (crtTVIndex (drawUI 18 (mkFrame true 1 10700 (Some 1) 0 (3 # 4))
                          (drawUI 18 (mouthFrame 600 4) initialState))))
  /\ (0 <= dmul (4503599627370495 # 4503599627370496) 18
      /\ dmul (4503599627370495 # 4503599627370496) 18 < 18
      /\ inRange 18 (randomIndex (4503599627370495 # 4503599627370496) 18))
  /\ (inject_Z 13 <= (3 # 4) * inject_Z 18 * (1 + pow2 (-53)) + pow2 (-1075)
      /\ (3 # 4) * inject_Z 18 * (1 - pow2 (-53)) - pow2 (-1075)
         < inject_Z 13 + 1).
Proof.
  split; [|split; [|split]].
  4:{ apply (proj2 (proj2 (proj2 (proj2
                     (C7_random_fallback crtTVNames 18 eq_refl))))
                   (3 # 4) 13%Z).
      - discriminate.
      - vm_compute. reflexivity. }
  3:{ apply (proj1 (proj2 (proj2 (proj2
                     (C7_random_fallback crtTVNames 18 eq_refl))))
                   (4503599627370495 # 4503599627370496)).
      - reflexivity.
      - discriminate.
      - reflexivity.
      - vm_compute. reflexivity. }
  - apply (proj1 (C7_random_fallback crtTVNames 18 eq_refl)
                 (mkSpeech true "show me a cactus" 4000 (3 # 4))
                 initialState).
    + vm_compute. reflexivity.
    + vm_compute. reflexivity.
    + vm_compute. discriminate.
    + vm_compute. reflexivity.
  - apply (proj1 (proj2 (C7_random_fallback crtTVNames 18 eq_refl))
                 (mkFrame true 1 10700 (Some 1) 0 (3 # 4))
                 (drawUI 18 (mouthFrame 600 4) initialState)).
    + split; [reflexivity | discriminate].
    + vm_compute. reflexivity.
    + vm_compute. reflexivity.
    + vm_compute. reflexivity.
    + vm_compute. discriminate.
    + vm_compute. reflexivity.
Defined.

(** ** A matched phrase *)

(** C8: when the search finds entry [i], [showResult] sets [crtTVIndex] to
    [i], an entry one of whose synonyms matches the utterance; this is the
    only assignment to [crtTVIndex] on that path.  A result whose
    [resultValue] is false changes nothing. *)
Theorem C8_matched_selection :
  forall (names : list (list string)) (n : Z) (r : Speech) (s : State)
         (i : nat) (nameEntry : string),
    resultValue r = true ->
    search (splitWords (resultString r)) names = Some (i, nameEntry) ->
    let s' := showResult names n r s in
    crtTVIndex s' = Int (Z.of_nat i)
    /\ foundIndex (splitWords (resultString r)) names = Z.of_nat i
    /\ pg s' = pgClosed /\ mouthOpen s' = false
    /\ console s'
       = LogDisplaying (Int (Z.of_nat i)) :: LogFoundMatch nameEntry i
           :: LogWords (splitWords (resultString r))
           :: LogResultString (resultString r) :: console s
    /\ (exists synonyms,
           nth_error names i = Some synonyms /\ In nameEntry synonyms
           /\ allPartsFound (splitWords (resultString r)) nameEntry = true)
    /\ (forall r0, resultValue r0 = false -> showResult names n r0 s = s).
Proof.
  intros names n r s i nameEntry Hv Hs s'. subst s'.
  assert (Hf : foundIndex (splitWords (resultString r)) names = Z.of_nat i)
    by (unfold foundIndex; now rewrite Hs).
  assert (Hne : ((Z.of_nat i =? -1) = false)%Z) by (apply Z.eqb_neq; lia).
  unfold showResult. rewrite Hv, Hs, Hf, Hne. simpl.
  repeat split.
  - unfold search in Hs.
    apply searchFrom_some in Hs as (_ & syn & Hnth & Hfirst & _).
    rewrite Nat.sub_0_r in Hnth.
    apply firstSynonym_some in Hfirst as (before & after & -> & Hm & _).
    exists (before ++ nameEntry :: after)%list. repeat split; auto.
    apply in_or_app. right. now left.
  - intros r0 Hr0. now rewrite Hr0.
Qed.

Lemma C8_matched_selection_witness :
  crtTVIndex (showResult crtTVNames 18
                (mkSpeech true "Show me the Rose of Sharon!" 4000 (7 # 10))
                initialState)
  = Int (Z.of_nat 3).
Proof.
  apply (C8_matched_selection crtTVNames 18
           (mkSpeech true "Show me the Rose of Sharon!" 4000 (7 # 10))
           initialState 3 "rose of sharon").
  - reflexivity.
  - reflexivity.
Defined.

(** ** Browsing with the nose *)

(** C10, as the code has it: on a frame with the camera ready and a face
    detected, once the gesture block has run, if the gesture is not open,
    the nose's vertical velocity exceeds 10 in magnitude and the
    difference between the frame's time and the time of the last shift, as
    the code computes it in doubles, is over 500, then the shift time is
    stamped and the index moves by +1 (velocity positive) or -1 (velocity
    negative) modulo the catalogue size; otherwise the index is left as
    the gesture block set it.  The shift keeps an index of [0, n) in
    [0, n), and it is made only when more than 500 ms have passed since the
    last one. *)
Theorem C10_nose_shift :
  forall (n : Z) (f : Frame) (s : State) (i : Z),
    (0 < n)%Z -> tracked f ->
    crtTVIndex (gestureBlock n f s) = Int i -> (0 <= i < n)%Z ->
    (mouthOpen (gestureBlock n f s) = false ->
     10 < Qabs (velocity5y f) ->
     500 < dsub (nowTime f) (velocityYTime s) ->
     velocityYTime (drawUI n f s) = nowTime f
     /\ (0 < velocity5y f ->
         crtTVIndex (drawUI n f s) = Int ((i + 1) mod n))
     /\ (velocity5y f < 0 ->
         crtTVIndex (drawUI n f s) = Int ((i - 1) mod n)))
    /\ (~ (mouthOpen (gestureBlock n f s) = false
           /\ 10 < Qabs (velocity5y f)
           /\ 500 < dsub (nowTime f) (velocityYTime s)) ->
        velocityYTime (drawUI n f s) = velocityYTime s
        /\ crtTVIndex (drawUI n f s) = Int i)
    /\ inRange n (crtTVIndex (drawUI n f s))
    /\ (500 < dsub (nowTime f) (velocityYTime s) ->
        velocityYTime s + 500 < nowTime f).
Proof.
  intros n f s i Hn Ht Hi Hr.
  rewrite (tracked_drawUI _ _ _ Ht).
  set (g := gestureBlock n f s) in *.
  destruct (panelBlock_sameGesture f g) as (Po & _).
  destruct (panelBlock_others f g) as (Pi & Pv & _).
  assert (Hv : velocityYTime g = velocityYTime s)
    by apply gestureBlock_velocityYTime.
  split; [|split; [|split]].
  4:{ intros Hlate.
      destruct (Qlt_le_dec (velocityYTime s + 500) (nowTime f))
        as [Hok | Hearly]; [exact Hok|].
      assert (Hle : dsub (nowTime f) (velocityYTime s) <= 500)
        by (apply dsub_le; [lra | lra | vm_compute; reflexivity]).
      lra. }
  - intros Ho Habs Hlate. unfold shiftBlock.
    rewrite Po, Pv, Hv, Ho. simpl.
    rewrite (proj2 (gt_true _ _) Habs), (proj2 (gt_true _ _) Hlate). simpl.
    split; [branch; reflexivity|]. split; intros Hsign.
    + rewrite (proj2 (gt_true _ _) Hsign). simpl.
      rewrite Pi, Hi. f_equal. now apply shift_up.
    + assert (Hneg : gt (velocity5y f) 0 = false)
        by (apply gt_false; now apply Qlt_le_weak).
      rewrite Hneg. simpl. rewrite Pi, Hi. now apply shift_down.
  - intros Hnot. unfold shiftBlock. rewrite Po, Pv, Hv.
    destruct (negb (mouthOpen g) && gt (Qabs (velocity5y f)) 10
              && gt (dsub (nowTime f) (velocityYTime s)) 500) eqn:E.
    + exfalso. apply Hnot.
      apply andb_prop in E as [E E3]. apply andb_prop in E as [E1 E2].
      apply negb_true_iff in E1. apply gt_true in E2, E3. tauto.
    + rewrite Pv, Pi, Hv. now split.
  - apply shiftBlock_range; [exact Hn|]. rewrite Pi, Hi. now exists i.
Qed.

Lemma C10_nose_shift_witness :
  crtTVIndex (drawUI 18 (mkFrame true 1 501 (Some 1) (-11) 0) initialState)
  = Int ((0 - 1) mod 18).
Proof.
  refine (proj2 (proj2 (proj1
            (C10_nose_shift 18 (mkFrame true 1 501 (Some 1) (-11) 0)
                            initialState 0 eq_refl _ eq_refl _)
            eq_refl eq_refl eq_refl)) eq_refl).
  - split; [reflexivity | discriminate].
  - lia.
Defined.

(** C10 as stated ("at least 500 ms") fails at exactly 500 ms: the
    gesture is not open, the nose moves down at 11 per frame and 500 ms
    have passed since the last shift, yet the index stays at 0; one
    millisecond later the same frame moves it to 1. *)
Lemma C10_no_shift_at_500ms :
  let f := mkFrame true 1 500 (Some 1) 11 0 in
  tracked f
  /\ mouthOpen (gestureBlock 18 f initialState) = false
  /\ 10 < Qabs (velocity5y f)
  /\ 500 <= nowTime f - velocityYTime initialState
  /\ crtTVIndex initialState = Int 0
  /\ crtTVIndex (drawUI 18 f initialState) = Int 0
  /\ crtTVIndex (drawUI 18 f initialState) <> Int ((0 + 1) mod 18)
  /\ crtTVIndex (drawUI 18 (mkFrame true 1 501 (Some 1) 11 0) initialState)
     = Int 1.
Proof.
  unfold tracked. repeat split; try reflexivity; try discriminate.
Qed.

(* ================================================================== *)
(** * Further properties of the matcher *)

Local Close Scope Q_scope.

Lemma lowerChar_separator c : isSeparator (lowerChar c) = isSeparator c.
Proof. destruct c as [[] [] [] [] [] [] [] []]; reflexivity. Qed.

Lemma upperChar_separator c : isSeparator (upperChar c) = isSeparator c.
Proof. destruct c as [[] [] [] [] [] [] [] []]; reflexivity. Qed.

Lemma lowerChar_idempotent c : lowerChar (lowerChar c) = lowerChar c.
Proof. destruct c as [[] [] [] [] [] [] [] []]; reflexivity. Qed.

Lemma toLowerCase_idempotent s : toLowerCase (toLowerCase s) = toLowerCase s.
Proof.
  induction s as [|c s IH]; simpl; [reflexivity|].
  now rewrite lowerChar_idempotent, IH.
Qed.

Lemma toLowerCase_separators s :
  allChars (fun c => negb (isSeparator c)) (toLowerCase s)
  = allChars (fun c => negb (isSeparator c)) s.
Proof.
  induction s as [|c s IH]; simpl; [reflexivity|].
  now rewrite lowerChar_separator, IH.
Qed.

Lemma Tokenized_tokens sep s ts :
  Tokenized sep s ts ->
  Forall (fun t => allChars (fun c => negb (sep c)) t = true) ts.
Proof. induction 1; constructor; auto. Qed.

Lemma splitWords_tokens utterance :
  Forall (fun t => allChars (fun c => negb (isSeparator c)) t = true)
         (splitWords utterance).
Proof.
  apply Tokenized_tokens with (s := utterance).
  apply splitRuns_Tokenized.
Qed.

Lemma matchesAt_each words parts ks :
  matchesAt words parts ks ->
  forall part, In part parts ->
               exists w, In w words /\ partMatches w part = true.
Proof.
  revert ks. induction parts as [|p parts IH]; intros [|k ks]; simpl;
    try tauto.
  intros [(w & Hnth & Hw) Hrest] part [<- | Hin].
  - exists w. split; [|exact Hw]. eapply nth_error_In, Hnth.
  - eapply IH; eauto.
Qed.

(** A synonym one of whose words holds a separator character can never be
    matched, whatever is said: the tokens of an utterance are free of
    separator characters, and lower-casing does not change that. *)
Theorem synonym_with_separator_never_matches :
  forall (utterance nameEntry part : string),
    In part (splitSpace nameEntry) ->
    allChars (fun c => negb (isSeparator c)) part = false ->
    allPartsFound (splitWords utterance) nameEntry = false.
Proof.
  intros utterance nameEntry part Hin Hsep.
  apply not_true_iff_false. intros Hfound.
  apply allPartsFrom_iff in Hfound as (ks & Hm & _).
  destruct (matchesAt_each _ _ _ Hm part Hin) as (w & Hw & Hmatch).
  pose proof (splitWords_tokens utterance) as Hfree.
  rewrite Forall_forall in Hfree. specialize (Hfree w Hw).
  unfold partMatches in Hmatch. apply String.eqb_eq in Hmatch.
  rewrite <- toLowerCase_separators, Hmatch, toLowerCase_separators in Hfree.
  congruence.
Qed.

Lemma synonym_with_separator_never_matches_witness :
  allPartsFound (splitWords "show me an ox-eye") "ox-eye" = false.
Proof.
  apply (synonym_with_separator_never_matches
           "show me an ox-eye" "ox-eye" "ox-eye").
  - left. reflexivity.
  - reflexivity.
Defined.

(** ** The letter case of the utterance *)

Lemma splitRuns_toLowerCase b s :
  splitRuns isSeparator b (toLowerCase s)
  = map toLowerCase (splitRuns isSeparator b s).
Proof.
  revert b. induction s as [|c s IH]; intros b; simpl; [reflexivity|].
  rewrite lowerChar_separator. destruct (isSeparator c).
  - destruct b; simpl; now rewrite IH.
  - rewrite IH. destruct (splitRuns isSeparator false s); reflexivity.
Qed.

Lemma partMatches_toLowerCase w part :
  partMatches (toLowerCase w) part = partMatches w part.
Proof. unfold partMatches. now rewrite toLowerCase_idempotent. Qed.

Lemma findPart_toLowerCase part ws k :
  findPart part (map toLowerCase ws) k = findPart part ws k.
Proof.
  revert k. induction ws as [|w ws IH]; intros k; simpl; [reflexivity|].
  now rewrite partMatches_toLowerCase, IH.
Qed.

Lemma allPartsFrom_toLowerCase words parts wordIndex :
  allPartsFrom (map toLowerCase words) parts wordIndex
  = allPartsFrom words parts wordIndex.
Proof.
  revert wordIndex. induction parts as [|p parts IH]; intros wi; simpl;
    [reflexivity|].
  rewrite skipn_map, findPart_toLowerCase.
  destruct (findPart p (skipn wi words) wi); [apply IH | reflexivity].
Qed.

Lemma search_toLowerCase words names :
  search (map toLowerCase words) names = search words names.
Proof.
  unfold search. generalize 0%nat.
  induction names as [|e names IH]; intros i; simpl; [reflexivity|].
  assert (E : firstSynonym (map toLowerCase words) e = firstSynonym words e).
  { induction e as [|n e IHe]; simpl; [reflexivity|].
    unfold allPartsFound. rewrite allPartsFrom_toLowerCase.
    now rewrite IHe. }
  rewrite E, IH. reflexivity.
Qed.

(** Two ASCII utterances that differ only in the case of their letters
    select the same entry of an ASCII catalogue, through the same
    synonym. *)
Theorem search_ignores_case :
  forall (u1 u2 : string) (names : list (list string)),
    asciiOnly u1 = true ->
    asciiOnly u2 = true ->
    asciiNames names = true ->
    toLowerCase u1 = toLowerCase u2 ->
    search (splitWords u1) names = search (splitWords u2) names
    /\ foundIndex (splitWords u1) names = foundIndex (splitWords u2) names.
Proof.
  intros u1 u2 names _ _ _ H.
  assert (E : search (splitWords u1) names = search (splitWords u2) names).
  { rewrite <- (search_toLowerCase (splitWords u1)),
            <- (search_toLowerCase (splitWords u2)).
    unfold splitWords. now rewrite <- !splitRuns_toLowerCase, H. }
  split; [exact E|]. unfold foundIndex. now rewrite E.
Qed.

Lemma search_ignores_case_witness :
  search (splitWords "SHOW me a Water Lily") crtTVNames
  = search (splitWords "show me a water lily") crtTVNames
  /\ foundIndex (splitWords "SHOW me a Water Lily") crtTVNames
     = foundIndex (splitWords "show me a water lily") crtTVNames.
Proof.
  apply (search_ignores_case "SHOW me a Water Lily" "show me a water lily");
    reflexivity.
Defined.

(** ** Words around a match *)

Lemma matchesAt_shift pre words post parts ks :
  matchesAt words parts ks ->
  matchesAt (pre ++ words ++ post)%list parts
            (map (fun k => List.length pre + k) ks).
Proof.
  revert ks. induction parts as [|p parts IH]; intros [|k ks]; simpl;
    try tauto.
  intros [(w & Hnth & Hw) Hrest]. split; [|now apply IH].
  exists w. split; [|exact Hw].
  rewrite nth_error_app2 by lia.
  replace (List.length pre + k - List.length pre) with k by lia.
  rewrite nth_error_app1; [exact Hnth|].
  apply nth_error_Some. congruence.
Qed.

Lemma ascending_shift d lo ks :
  ascending 1 lo ks -> ascending 1 (d + lo) (map (fun k => d + k) ks).
Proof.
  revert lo. induction ks as [|k ks IH]; intros lo; simpl; [trivial|].
  intros [Hle Hrest]. split; [lia|].
  replace (d + k + 1) with (d + (k + 1)) by lia. now apply IH.
Qed.

Lemma allPartsFound_filler pre words post nameEntry :
  allPartsFound words nameEntry = true ->
  allPartsFound (pre ++ words ++ post)%list nameEntry = true.
Proof.
  unfold allPartsFound. rewrite !allPartsFrom_iff.
  intros (ks & Hm & Hasc).
  exists (map (fun k => List.length pre + k) ks). split.
  - now apply matchesAt_shift.
  - apply ascending_lower with (lo := List.length pre + 0); [lia|].
    now apply ascending_shift.
Qed.

(** Words said before or after do not lose a match: a synonym matched by
    a list of words is still matched when more words are put in front and
    behind, and the entry then selected comes no later in the catalogue
    than the one selected before (it may come earlier). *)
Theorem filler_words_keep_a_match :
  forall (pre words post : list string) (names : list (list string))
         (i : nat) (nameEntry : string),
    search words names = Some (i, nameEntry) ->
    allPartsFound (pre ++ words ++ post)%list nameEntry = true
    /\ exists i' nameEntry',
         search (pre ++ words ++ post)%list names = Some (i', nameEntry')
         /\ i' <= i.
Proof.
  intros pre words post names i nameEntry Hs.
  unfold search in *.
  apply searchFrom_some in Hs as (_ & syn & Hnth & Hfirst & _).
  rewrite Nat.sub_0_r in Hnth.
  apply firstSynonym_some in Hfirst as (before & after & -> & Hm & _).
  apply (allPartsFound_filler pre words post) in Hm.
  split; [exact Hm|].
  set (words' := (pre ++ words ++ post)%list) in *.
  assert (Hentry : entryMatches words' (before ++ nameEntry :: after)%list
                   = true).
  { unfold entryMatches. apply existsb_exists. exists nameEntry.
    split; [|exact Hm]. apply in_or_app. right. now left. }
  destruct (searchFrom words' names 0) as [[i' e']|] eqn:E.
  - exists i', e'. split; [reflexivity|].
    apply searchFrom_some in E as (_ & _ & _ & _ & Hbefore).
    rewrite Nat.sub_0_r in Hbefore.
    destruct (Nat.le_gt_cases i' i) as [Hle | Hgt]; [exact Hle|].
    rewrite (Hbefore i _ Hgt Hnth) in Hentry. discriminate.
  - rewrite searchFrom_none in E.
    rewrite (E _ (nth_error_In _ _ Hnth)) in Hentry. discriminate.
Qed.

Lemma filler_words_keep_a_match_witness :
  allPartsFound (["please"; "show"] ++ ["rose"] ++ ["of"; "sharon"])%list
                "rose" = true
  /\ exists i' nameEntry',
       search (["please"; "show"] ++ ["rose"] ++ ["of"; "sharon"])%list
              crtTVNames = Some (i', nameEntry')
       /\ i' <= 13.
Proof.
  apply (filler_words_keep_a_match ["please"; "show"] ["rose"]
           ["of"; "sharon"] crtTVNames 13 "rose").
  reflexivity.
Defined.

(** ** Splitting and joining *)

Lemma concat_grow sep c t ts :
  String.concat sep (String c t :: ts) = String c (String.concat sep (t :: ts)).
Proof. destruct ts; reflexivity. Qed.

Lemma splitSpace_nonempty s : splitSpace s <> [].
Proof.
  induction s as [|c s IH]; simpl; [discriminate|].
  destruct (Ascii.eqb c " "); [discriminate|].
  destruct (splitSpace s); discriminate.
Qed.

(** Joining the parts of a synonym with single spaces gives the synonym
    back, and no part holds a space. *)
Theorem splitSpace_join :
  forall nameEntry : string,
    String.concat " " (splitSpace nameEntry) = nameEntry
    /\ Forall (fun part =>
                 allChars (fun c => negb (Ascii.eqb c " ")) part = true)
              (splitSpace nameEntry).
Proof.
  induction nameEntry as [|c s [IH1 IH2]]; simpl.
  - split; [reflexivity | repeat constructor].
  - destruct (Ascii.eqb c " ") eqn:E.
    + apply Ascii.eqb_eq in E. subst c. split.
      * destruct (splitSpace s) as [|t ts] eqn:Es.
        -- now apply splitSpace_nonempty in Es.
        -- simpl in *. now rewrite IH1.
      * constructor; [reflexivity | exact IH2].
    + destruct (splitSpace s) as [|t ts] eqn:Es.
      * now apply splitSpace_nonempty in Es.
      * split.
        -- rewrite concat_grow. now rewrite IH1.
        -- inversion IH2; subst. constructor; [|assumption].
           simpl. now rewrite E.
Qed.

Lemma splitRuns_concat sep b s :
  list_ascii_of_string (String.concat "" (splitRuns sep b s))
  = filter (fun c => negb (sep c)) (list_ascii_of_string s).
Proof.
  revert b. induction s as [|c s IH]; intros b; simpl; [reflexivity|].
  destruct (sep c) eqn:E; simpl.
  - destruct b; [apply IH|].
    specialize (IH true).
    destruct (splitRuns sep true s) as [|t ts] eqn:Es.
    + now apply splitRuns_nonempty in Es.
    + exact IH.
  - specialize (IH false).
    destruct (splitRuns sep false s) as [|t ts] eqn:Es.
    + now apply splitRuns_nonempty in Es.
    + rewrite concat_grow. cbn [list_ascii_of_string]. f_equal. exact IH.
Qed.

(** Tokenising drops the separator characters and nothing else: the
    tokens put end to end are the utterance with its separator characters
    taken out, every other character kept, in order and unchanged. *)
Theorem splitWords_keeps_other_characters :
  forall utterance : string,
    list_ascii_of_string (String.concat "" (splitWords utterance))
    = filter (fun c => negb (isSeparator c)) (list_ascii_of_string utterance).
Proof. intros utterance. apply splitRuns_concat. Qed.

(* ================================================================== *)
(** * Further properties of the controller *)

Local Open Scope Q_scope.

(** ** The selection index along a run *)

Lemma search_bound words names i nameEntry :
  search words names = Some (i, nameEntry) -> (i < List.length names)%nat.
Proof.
  unfold search. intros H.
  apply searchFrom_some in H as (_ & syn & Hnth & _).
  rewrite Nat.sub_0_r in Hnth. apply nth_error_Some. congruence.
Qed.

Lemma showResult_range names n r s :
  (0 < n)%Z -> (Z.of_nat (List.length names) <= n)%Z ->
  0 <= speechRnd r -> dmul (speechRnd r) (inject_Z n) < inject_Z n ->
  inRange n (crtTVIndex s) ->
  inRange n (crtTVIndex (showResult names n r s)).
Proof.
  intros Hn Hlen H0 H1 Hr. unfold showResult, foundIndex.
  destruct (resultValue r); [|exact Hr].
  destruct (search (splitWords (resultString r)) names) as [[i e]|] eqn:E.
  - apply search_bound in E.
    assert (Hne : ((Z.of_nat i =? -1) = false)%Z) by (apply Z.eqb_neq; lia).
    rewrite Hne. simpl. exists (Z.of_nat i). split; [reflexivity | lia].
  - simpl. now apply randomIndex_range.
Qed.

(** Along any run of frames and speech results, with the random
    generator delivering doubles of [0, 1), an array length [n] (so below
    2^53) and no more catalogue entries than images, [crtTVIndex] stays an
    integer of [0, n): it never becomes NaN and never points outside
    [crtTVImages]. *)
Theorem index_stays_in_range :
  forall (names : list (list string)) (n : Z) (es : list Event) (s : State),
    (0 < n)%Z -> (n < 2 ^ 53)%Z ->
    (Z.of_nat (List.length names) <= n)%Z ->
    Forall (fun e => match e with
                     | Tick f =>
                         0 <= rnd f /\ rnd f < 1 /\ isDouble (rnd f)
                     | Heard r =>
                         0 <= speechRnd r /\ speechRnd r < 1
                         /\ isDouble (speechRnd r)
                     end) es ->
    inRange n (crtTVIndex s) ->
    inRange n (crtTVIndex (run names n s es)).
Proof.
  intros names n es.
  induction es as [|e es IH]; intros s Hn Hbig Hlen Hall Hr.
  - exact Hr.
  - inversion Hall as [|? ? He Hrest]; subst. simpl.
    apply IH; auto.
    destruct e as [f | r]; simpl; destruct He as (H0 & H1 & Hd);
      destruct (dmul_below _ n (conj Hn Hbig) H0 H1 Hd) as [_ Hlt].
    + now apply drawUI_range.
    + now apply showResult_range.
Qed.

Lemma index_stays_in_range_witness :
  inRange 18
    (crtTVIndex
       (run crtTVNames 18 initialState
            [Tick (mkFrame true 1 600 (Some 4) 0 (1 # 2));
             Heard (mkSpeech true "a cactus" 900 (63 # 64));
             Tick (mkFrame true 1 1500 (Some 1) 12 0)])).
Proof.
  apply (index_stays_in_range crtTVNames 18).
  - reflexivity.
  - reflexivity.
  - simpl. lia.
  - repeat constructor; try discriminate; vm_compute; reflexivity.
  - exists 0%Z. split; [reflexivity | lia].
Defined.

(** ** Re-arming *)

Lemma no_opening_no_start n f s :
  ~ opensOn f s -> starts (drawUI n f s) = starts s.
Proof.
  intros Hno. rewrite drawUI_starts.
  destruct (opens s (drawUI n f s)) eqn:E; [|lia].
  apply drawUI_opens in E. contradiction.
Qed.

(** While every event reads a time between [t0] and [t0 + 500], [t0]
    being no later than [mouthCloseTime], no event starts the recogniser
    and [mouthCloseTime] stays at or after [t0]. *)
Lemma quiet_window names n es :
  forall s t0,
    t0 <= mouthCloseTime s ->
    Forall (fun e => t0 <= eventTime e /\ eventTime e <= t0 + 500) es ->
    starts (run names n s es) = starts s
    /\ t0 <= mouthCloseTime (run names n s es).
Proof.
  induction es as [|e es IH]; intros s t0 Hc Hall; simpl; [now split|].
  inversion Hall as [|? ? [Hlo Hhi] Hrest]; subst.
  fold (run names n (step names n s e) es).
  assert (Hstep : starts (step names n s e) = starts s
                  /\ t0 <= mouthCloseTime (step names n s e)).
  { destruct e as [f | r]; simpl in *.
    - destruct (drawUI_cases n f s)
        as [((_ & _ & _ & A) & _)
           | [(_ & _ & _ & M & R) | (_ & _ & _ & _ & R & M)]].
      + assert (Hle : dsub (nowTime f) (mouthCloseTime s) <= 500)
          by (apply dsub_le; [lra | lra | vm_compute; reflexivity]).
        lra.
      + unfold starts. rewrite R, M. simpl. now split.
      + unfold starts. rewrite R. split; [reflexivity|].
        destruct (tracked_dec f) as [Ht | Hu].
        * rewrite (M Ht). now destruct (distanceAbove (distance3_4 f) 3).
        * destruct (untracked_drawUI n f s Hu) as ((_ & _ & _ & E & _) & _).
          now rewrite E.
    - destruct (showResult_gesture names n r s) as (R & _ & Ht & Hf).
      unfold starts. rewrite R. split; [reflexivity|].
      destruct (resultValue r).
      + destruct (Ht eq_refl) as [_ E]. now rewrite E.
      + now rewrite (Hf eq_refl). }
  destruct Hstep as [Hs Hc'].
  destruct (IH (step names n s e) t0 Hc' Hrest) as [I1 I2].
  split; [congruence | exact I2].
Qed.

(** For 500 ms after a speech result, and for 500 ms after a tracked
    frame with the mouth gap at or under 3, nothing starts the
    recogniser: over any run of frames and speech results whose times lie
    within those 500 ms the number of starts does not change, however
    wide the mouth is. *)
Theorem no_start_within_500ms :
  forall (names : list (list string)) (n : Z),
    (forall r s es,
        resultValue r = true ->
        Forall (fun e => speechTime r <= eventTime e
                         /\ eventTime e <= speechTime r + 500) es ->
        starts (run names n (showResult names n r s) es) = starts s)
    /\ (forall f1 s es,
           tracked f1 -> distanceAbove (distance3_4 f1) 3 = false ->
           Forall (fun e => nowTime f1 <= eventTime e
                            /\ eventTime e <= nowTime f1 + 500) es ->
           starts (run names n (drawUI n f1 s) es) = starts (drawUI n f1 s)).
Proof.
  intros names n. split.
  - intros r s es Hv Hall.
    destruct (showResult_gesture names n r s) as (R & _ & Ht & _).
    destruct (Ht Hv) as [_ Hc].
    destruct (quiet_window names n es (showResult names n r s) (speechTime r))
      as [E _]; [rewrite Hc; apply Qle_refl | exact Hall |].
    rewrite E. unfold starts. now rewrite R.
  - intros f1 s es Ht Hd Hall.
    assert (Hc : mouthCloseTime (drawUI n f1 s) = nowTime f1).
    { destruct (drawUI_cases n f1 s)
        as [((_ & _ & A & _) & _)
           | [(_ & _ & _ & E & _) | (_ & _ & _ & _ & _ & E)]].
      - congruence.
      - exact E.
      - rewrite (E Ht), Hd. reflexivity. }
    destruct (quiet_window names n es (drawUI n f1 s) (nowTime f1))
      as [E _]; [rewrite Hc; apply Qle_refl | exact Hall |].
    exact E.
Qed.

Lemma no_start_within_500ms_witness :
  starts (run crtTVNames 18
            (showResult crtTVNames 18 (mkSpeech true "rose" 1000 0)
                        initialState)
            [Tick (mouthFrame 1200 9); Tick (mouthFrame 1500 9)])
  = starts initialState.
Proof.
  apply (proj1 (no_start_within_500ms crtTVNames 18)
               (mkSpeech true "rose" 1000 0) initialState
               [Tick (mouthFrame 1200 9); Tick (mouthFrame 1500 9)]).
  - reflexivity.
  - repeat constructor; simpl; discriminate.
Defined.

(** ** Frames without a tracked face *)

(** While the camera is not ready or no face is detected, frames change
    the text panel and nothing else: the gesture, its time stamps, the
    recogniser, the selection and the log stay as they are, so listening
    is neither started nor given up, however long this lasts. *)
Theorem untracked_frames_hold_state :
  forall (names : list (list string)) (n : Z) (fs : list Frame) (s : State),
    Forall (fun f => ~ tracked f) fs ->
    sameGesture s (run names n s (map Tick fs))
    /\ crtTVIndex (run names n s (map Tick fs)) = crtTVIndex s
    /\ velocityYTime (run names n s (map Tick fs)) = velocityYTime s
    /\ console (run names n s (map Tick fs)) = console s.
Proof.
  intros names n fs. induction fs as [|f fs IH]; intros s Hall; simpl.
  - unfold sameGesture. tauto.
  - inversion Hall as [|? ? Hf Hrest]; subst.
    destruct (IH (drawUI n f s) Hrest) as ((A1 & A2 & A3 & A4 & A5) & B & C & D).
    fold (run names n (drawUI n f s) (map Tick fs)).
    assert (E : drawUI n f s
                = set_pg (if camReady f then pgShowFace else pgStarting) s).
    { unfold drawUI. destruct (camReady f) eqn:Hc; simpl; [|reflexivity].
      destruct (facesLength f) eqn:Hl; simpl; [reflexivity|].
      exfalso. apply Hf. split; [exact Hc | lia]. }
    rewrite E in *. unfold sameGesture. simpl in *. tauto.
Qed.

Lemma untracked_frames_hold_state_witness :
  crtTVIndex (run crtTVNames 18 (drawUI 18 (mouthFrame 600 4) initialState)
                  (map Tick [mkFrame true 0 20000 (Some 1) 50 0;
                             mkFrame false 1 40000 (Some 1) 50 0]))
  = crtTVIndex (drawUI 18 (mouthFrame 600 4) initialState).
Proof.
  apply (untracked_frames_hold_state crtTVNames 18).
  repeat constructor; unfold tracked; simpl; intros [H1 H2];
    congruence.
Defined.

(** ** The text panel *)

Lemma gestureBlock_panel n f s :
  (pg s = pgOpen -> mouthOpen s = true) ->
  pg (gestureBlock n f s) = pgOpen -> mouthOpen (gestureBlock n f s) = true.
Proof.
  unfold gestureBlock. repeat branch; simpl; intros Hinv Hpg;
    auto; try discriminate; try (rewrite Hinv in *; auto; discriminate).
Qed.

Lemma panelBlock_panel f s :
  (pg s = pgOpen -> mouthOpen s = true) ->
  pg (panelBlock f s) = pgOpen -> mouthOpen (panelBlock f s) = true.
Proof.
  unfold panelBlock. repeat branch; simpl; intros Hinv Hpg;
    auto; discriminate.
Qed.

Lemma shiftBlock_panel n f s :
  pg (shiftBlock n f s) = pg s /\ mouthOpen (shiftBlock n f s) = mouthOpen s.
Proof. unfold shiftBlock. repeat branch; simpl; tauto. Qed.

Lemma step_panel names n s e :
  (pg s = pgOpen -> mouthOpen s = true) ->
  pg (step names n s e) = pgOpen -> mouthOpen (step names n s e) = true.
Proof.
  intros Hinv. destruct e as [f | r]; simpl.
  - unfold drawUI. destruct (camReady f); simpl; [|discriminate].
    destruct (facesLength f =? 0)%nat; simpl; [discriminate|].
    destruct (shiftBlock_panel n f (panelBlock f (gestureBlock n f s)))
      as [-> ->].
    apply panelBlock_panel. now apply gestureBlock_panel.
  - unfold showResult. destruct (resultValue r); [|exact Hinv].
    destruct (search _ names) as [[i e]|]; branch; simpl; discriminate.
Qed.

(** The "Listening!" panel is up only while the gesture is open: from
    the initial state, after any run of frames and speech results, [pg]
    being [pgOpen] implies [mouthOpen]. *)
Theorem listening_panel_only_while_open :
  forall (names : list (list string)) (n : Z) (es : list Event),
    pg (run names n initialState es) = pgOpen ->
    mouthOpen (run names n initialState es) = true.
Proof.
  intros names n es.
  assert (H : forall s, (pg s = pgOpen -> mouthOpen s = true) ->
                        pg (run names n s es) = pgOpen ->
                        mouthOpen (run names n s es) = true).
  { induction es as [|e es IH]; intros s Hinv; simpl; [exact Hinv|].
    apply IH. now apply step_panel. }
  apply H. simpl. discriminate.
Qed.

Lemma listening_panel_only_while_open_witness :
  mouthOpen (run crtTVNames 18 initialState [Tick (mouthFrame 600 4)]) = true.
Proof.
  apply (listening_panel_only_while_open crtTVNames 18
           [Tick (mouthFrame 600 4)]).
  reflexivity.
Defined.

(** The frame that gives up after ten seconds logs the miss and picks
    the random flower, but the panel it leaves is [pgClosed]: the
    "Did not catch that" panel set on that path is replaced before
    [drawUI] returns. *)
Theorem give_up_shows_closed_panel :
  forall (n : Z) (f : Frame) (s : State),
    closes s (drawUI n f s) = true ->
    pg (gestureBlock n f s) = pgMissHear
    /\ pg (drawUI n f s) = pgClosed.
Proof.
  intros n f s Hc. apply drawUI_closes in Hc.
  destruct Hc as (Ht & Ho & Hd & Hlate).
  assert (Hg : gt (dsub (nowTime f) (mouthOpenTime s)) 10000 = true)
    by now apply gt_true.
  assert (E : pg (gestureBlock n f s) = pgMissHear
              /\ mouthOpen (gestureBlock n f s) = false
              /\ mouthOpenTime (gestureBlock n f s) = mouthOpenTime s).
  { unfold gestureBlock. rewrite Hd, Ho. simpl. rewrite Ho, Hg. simpl. tauto. }
  destruct E as (E1 & E2 & E3). split; [exact E1|].
  rewrite (tracked_drawUI _ _ _ Ht).
  destruct (shiftBlock_panel n f (panelBlock f (gestureBlock n f s)))
    as [-> _].
  unfold panelBlock. rewrite E1, E2, E3, Hg. reflexivity.
Qed.

Lemma give_up_shows_closed_panel_witness :
  pg (gestureBlock 18 (mouthFrame 10700 1)
                   (drawUI 18 (mouthFrame 600 4) initialState)) = pgMissHear
  /\ pg (drawUI 18 (mouthFrame 10700 1)
                (drawUI 18 (mouthFrame 600 4) initialState)) = pgClosed.
Proof.
  apply (give_up_shows_closed_panel 18 (mouthFrame 10700 1)
           (drawUI 18 (mouthFrame 600 4) initialState)).
  reflexivity.
Defined.

(** ** Browsing back and forth *)

(** A tracked frame met with the gesture closed and the mouth gap at or
    under 3 leaves the gesture closed; what it does to the selection is
    the nose shift alone. *)
Lemma closed_frame_shift n f s :
  tracked f -> mouthOpen s = false ->
  distanceAbove (distance3_4 f) 3 = false ->
  mouthOpen (drawUI n f s) = false
  /\ crtTVIndex (drawUI n f s)
     = (if gt (Qabs (velocity5y f)) 10 && gt (dsub (nowTime f) (velocityYTime s)) 500
        then if gt (velocity5y f) 0
             then jsRem (jsAdd (crtTVIndex s) 1) n
             else jsRem (jsAdd (jsAdd (crtTVIndex s) (-1)) n) n
        else crtTVIndex s)
  /\ velocityYTime (drawUI n f s)
     = (if gt (Qabs (velocity5y f)) 10 && gt (dsub (nowTime f) (velocityYTime s)) 500
        then nowTime f else velocityYTime s).
Proof.
  intros Ht Ho Hd.
  destruct (closed_sample n f s Ht Ho Hd) as (O & _ & _).
  split; [exact O|].
  rewrite (tracked_drawUI _ _ _ Ht).
  destruct (panelBlock_sameGesture f (gestureBlock n f s)) as (Po & _).
  destruct (panelBlock_others f (gestureBlock n f s)) as (Pi & Pv & _).
  assert (Go : mouthOpen (gestureBlock n f s) = false).
  { destruct (drawUI_gesture n f s Ht) as (E & _). congruence. }
  assert (Gi : crtTVIndex (gestureBlock n f s) = crtTVIndex s).
  { destruct (gestureBlock_cases n f s)
      as [(_ & A & _) | [(A & _) | (_ & _ & _ & _ & E & _)]]; congruence. }
  pose proof (gestureBlock_velocityYTime n f s) as Gv.
  unfold shiftBlock. rewrite Po, Pv, Go, Gv. simpl.
  destruct (gt (Qabs (velocity5y f)) 10 && gt (dsub (nowTime f) (velocityYTime s)) 500);
    [destruct (gt (velocity5y f) 0)|]; simpl; rewrite ?Pi, ?Pv, ?Gi, ?Gv; auto.
Qed.

Lemma fast_down v : 10 < v -> gt (Qabs v) 10 = true /\ gt v 0 = true.
Proof.
  intros H. split; apply gt_true; [|lra].
  apply Qlt_le_trans with (y := v); [exact H | apply Qle_Qabs].
Qed.

Lemma fast_up v : v < -10 -> gt (Qabs v) 10 = true /\ gt v 0 = false.
Proof.
  intros H. split; [apply gt_true | apply gt_false; lra].
  apply Qlt_le_trans with (y := - v); [lra|].
  rewrite <- Qabs_opp. apply Qle_Qabs.
Qed.

(** With the gesture closed and the mouth gap at or under 3, a nose move
    faster than 10 in one vertical direction, made when the computed time
    since the last shift exceeds 500, followed by a move faster than 10 in
    the other direction, made when the computed time since that first move
    exceeds 500, brings the selection back to where it was. *)
Theorem shift_there_and_back :
  forall (n : Z) (f1 f2 : Frame) (s : State) (i : Z),
    (0 < n)%Z -> crtTVIndex s = Int i -> (0 <= i < n)%Z ->
    mouthOpen s = false ->
    tracked f1 -> distanceAbove (distance3_4 f1) 3 = false ->
    tracked f2 -> distanceAbove (distance3_4 f2) 3 = false ->
    500 < dsub (nowTime f1) (velocityYTime s) ->
    500 < dsub (nowTime f2) (nowTime f1) ->
    (10 < velocity5y f1 /\ velocity5y f2 < -10)
    \/ (velocity5y f1 < -10 /\ 10 < velocity5y f2) ->
    crtTVIndex (drawUI n f2 (drawUI n f1 s)) = Int i.
Proof.
  intros n f1 f2 s i Hn Hi Hr Ho T1 D1 T2 D2 L1 L2 Hv.
  destruct (closed_frame_shift n f1 s T1 Ho D1) as (O1 & I1 & V1).
  destruct (closed_frame_shift n f2 (drawUI n f1 s) T2 O1 D2) as (_ & I2 & _).
  apply gt_true in L1. rewrite L1, andb_true_r in I1, V1.
  destruct Hv as [[Hd Hu] | [Hu Hd]];
    destruct (fast_down _ Hd) as [A1 A2]; destruct (fast_up _ Hu) as [B1 B2].
  - rewrite A1, A2 in I1. rewrite A1 in V1.
    rewrite V1, B1, B2, (proj2 (gt_true _ _) L2) in I2. simpl in I2.
    rewrite I2, I1, Hi, shift_up by assumption.
    rewrite shift_down; [|assumption | now apply Z.mod_pos_bound].
    f_equal. rewrite Zminus_mod_idemp_l.
    replace (i + 1 - 1)%Z with i by lia. apply Z.mod_small. lia.
  - rewrite B1, B2 in I1. rewrite B1 in V1.
    rewrite V1, A1, A2, (proj2 (gt_true _ _) L2) in I2. simpl in I2.
    rewrite I2, I1, Hi, shift_down by assumption.
    rewrite shift_up; [|assumption | now apply Z.mod_pos_bound].
    f_equal. rewrite Zplus_mod_idemp_l.
    replace (i - 1 + 1)%Z with i by lia. apply Z.mod_small. lia.
Qed.

Lemma shift_there_and_back_witness :
  crtTVIndex (drawUI 18 (mkFrame true 1 1200 (Some 1) (-11) 0)
                (drawUI 18 (mkFrame true 1 600 (Some 1) 11 0) initialState))
  = Int 0.
Proof.
  apply (shift_there_and_back 18 (mkFrame true 1 600 (Some 1) 11 0)
           (mkFrame true 1 1200 (Some 1) (-11) 0) initialState 0);
    try reflexivity; try (split; [reflexivity | discriminate]).
  - lia.
  - left. split; reflexivity.
Defined.

(** With the gesture closed, no shift is made while the time read is no
    more than 500 ms after [velocityYTime]: over any run of frames with
    the mouth gap at or under 3, the selection and the shift time stay as
    they are. *)
Lemma no_shift_window n fs :
  forall s,
    mouthOpen s = false ->
    Forall (fun f => distanceAbove (distance3_4 f) 3 = false
                     /\ nowTime f - velocityYTime s <= 500) fs ->
    crtTVIndex (fold_left (fun s f => drawUI n f s) fs s) = crtTVIndex s
    /\ velocityYTime (fold_left (fun s f => drawUI n f s) fs s)
       = velocityYTime s.
Proof.
  induction fs as [|f fs IH]; intros s Ho Hall; simpl; [now split|].
  inversion Hall as [|? ? [Hd Hsoon] Hrest]; subst.
  assert (Hstep : mouthOpen (drawUI n f s) = false
                  /\ crtTVIndex (drawUI n f s) = crtTVIndex s
                  /\ velocityYTime (drawUI n f s) = velocityYTime s).
  { destruct (tracked_dec f) as [Ht | Hu].
    - destruct (closed_frame_shift n f s Ht Ho Hd) as (O & I & V).
      assert (Hle : gt (dsub (nowTime f) (velocityYTime s)) 500 = false).
      { apply gt_false. apply dsub_le; [lra | lra | vm_compute; reflexivity]. }
      rewrite Hle, andb_false_r in I, V. tauto.
    - destruct (untracked_drawUI n f s Hu) as ((O & _) & I).
      assert (V : velocityYTime (drawUI n f s) = velocityYTime s).
      { unfold drawUI. repeat branch; try reflexivity.
        exfalso. apply Hu. unfold tracked. rewrite negb_false_iff in *.
        split; [assumption | now apply Nat.eqb_neq]. }
      repeat split; congruence. }
  destruct Hstep as (O & I & V).
  destruct (IH (drawUI n f s) O) as [I' V'].
  - rewrite V. eapply Forall_impl; [|exact Hrest]. simpl. tauto.
  - split; congruence.
Qed.

(** With the gesture closed and the mouth gap at or under 3, after a
    frame that shifts the selection, no frame whose time is at most 500 ms
    after that frame's shifts it again, however fast the nose moves and
    however many such frames follow. *)
Theorem one_shift_per_500ms :
  forall (n : Z) (f1 : Frame) (fs : list Frame) (s : State),
    mouthOpen s = false ->
    tracked f1 -> distanceAbove (distance3_4 f1) 3 = false ->
    10 < Qabs (velocity5y f1) ->
    500 < dsub (nowTime f1) (velocityYTime s) ->
    Forall (fun f => distanceAbove (distance3_4 f) 3 = false
                     /\ nowTime f - nowTime f1 <= 500) fs ->
    velocityYTime (drawUI n f1 s) = nowTime f1
    /\ crtTVIndex (fold_left (fun s f => drawUI n f s) fs (drawUI n f1 s))
       = crtTVIndex (drawUI n f1 s)
    /\ velocityYTime (fold_left (fun s f => drawUI n f s) fs (drawUI n f1 s))
       = nowTime f1.
Proof.
  intros n f1 fs s Ho T1 D1 Hfast Hlate Hall.
  destruct (closed_frame_shift n f1 s T1 Ho D1) as (O1 & _ & V1).
  apply gt_true in Hfast, Hlate. rewrite Hfast, Hlate in V1. simpl in V1.
  destruct (no_shift_window n fs (drawUI n f1 s) O1) as [I V].
  - now rewrite V1.
  - split; [exact V1|]. split; [exact I | congruence].
Qed.

Lemma one_shift_per_500ms_witness :
  velocityYTime (drawUI 18 (mkFrame true 1 600 (Some 1) 11 0) initialState)
  = 600
  /\ crtTVIndex
       (fold_left (fun s f => drawUI 18 f s)
          [mkFrame true 1 800 (Some 1) 30 0; mkFrame true 1 1100 (Some 1) 30 0]
          (drawUI 18 (mkFrame true 1 600 (Some 1) 11 0) initialState))
     = crtTVIndex (drawUI 18 (mkFrame true 1 600 (Some 1) 11 0) initialState)
  /\ velocityYTime
       (fold_left (fun s f => drawUI 18 f s)
          [mkFrame true 1 800 (Some 1) 30 0; mkFrame true 1 1100 (Some 1) 30 0]
          (drawUI 18 (mkFrame true 1 600 (Some 1) 11 0) initialState))
     = 600.
Proof.
  apply (one_shift_per_500ms 18 (mkFrame true 1 600 (Some 1) 11 0)
           [mkFrame true 1 800 (Some 1) 30 0;
            mkFrame true 1 1100 (Some 1) 30 0] initialState).
  - reflexivity.
  - split; [reflexivity | discriminate].
  - reflexivity.
  - reflexivity.
  - vm_compute. reflexivity.
  - repeat constructor; simpl; discriminate.
Defined.

(* ================================================================== *)
(** * The earlier variant *)

Lemma earlier_tracked n f s :
  tracked f ->
  Earlier.drawUI n f s
  = (if distanceAbove (distance3_4 f) (5 # 2) then
       let s1 :=
         if negb (mouthOpen s) then
           set_mouthOpenTime (nowTime f)
             (set_mouthOpen true (set_pg pgOpen (callRec RecStart s)))
         else s in
       if mouthClose s1 && gt (dsub (nowTime f) (mouthCloseTime s1)) 100 then
         set_crtTVIndex (randomIndex (rnd f) n) (set_mouthClose false s1)
       else s1
     else
       let s1 :=
         if negb (mouthOpen s) && negb (mouthClose s) then set_pg pgClosed s
         else s in
       let s2 := set_mouthCloseTime (nowTime f) (set_mouthClose true s1) in
       if mouthOpen s2 && gt (dsub (nowTime f) (mouthOpenTime s2)) 10000 then
         set_mouthOpen false (set_pg pgClosed (callRec RecStop s2))
       else s2).
Proof.
  intros [Hc Hf]. unfold Earlier.drawUI. rewrite Hc. simpl.
  destruct (facesLength f); [contradiction | reflexivity].
Qed.

(** In the earlier variant the selection changes in one place only: a
    tracked frame with the mouth gap over 2.5, met with [mouthClose] set
    and with the difference between its time and [mouthCloseTime], as the
    code computes it in doubles, over 100, picks a random flower.
    Every other frame, the ten-second give-up included, and every speech
    result leave the selection alone. *)
Theorem earlier_selection_changes_on_reopening :
  forall (n : Z) (f : Frame) (s : State) (r : Speech),
    (tracked f /\ distanceAbove (distance3_4 f) (5 # 2) = true
     /\ mouthClose s = true /\ 100 < dsub (nowTime f) (mouthCloseTime s) ->
     crtTVIndex (Earlier.drawUI n f s) = randomIndex (rnd f) n)
    /\ (~ (tracked f /\ distanceAbove (distance3_4 f) (5 # 2) = true
           /\ mouthClose s = true /\ 100 < dsub (nowTime f) (mouthCloseTime s)) ->
        crtTVIndex (Earlier.drawUI n f s) = crtTVIndex s)
    /\ crtTVIndex (Earlier.showResult r s) = crtTVIndex s.
Proof.
  intros n f s r. split; [|split].
  - intros (Ht & Hd & Hc & Hlate). apply gt_true in Hlate.
    rewrite (earlier_tracked _ _ _ Ht), Hd.
    destruct (mouthOpen s); simpl; rewrite Hc, Hlate; reflexivity.
  - intros Hnot. destruct (tracked_dec f) as [Ht | Hu].
    + rewrite (earlier_tracked _ _ _ Ht).
      destruct (distanceAbove (distance3_4 f) (5 # 2)) eqn:Hd.
      * destruct (mouthClose s) eqn:Hc.
        -- destruct (gt (dsub (nowTime f) (mouthCloseTime s)) 100) eqn:Hg.
           ++ exfalso. apply Hnot. apply gt_true in Hg. tauto.
           ++ destruct (mouthOpen s); simpl; rewrite Hc, Hg; reflexivity.
        -- destruct (mouthOpen s); simpl; rewrite Hc; reflexivity.
      * cbv zeta. repeat (branch; simpl); reflexivity.
    + unfold Earlier.drawUI. destruct (camReady f) eqn:Hc; [|reflexivity].
      simpl. destruct (facesLength f =? 0)%nat eqn:Hf; [reflexivity|].
      exfalso. apply Hu. split; [exact Hc|].
      now apply Nat.eqb_neq in Hf.
  - unfold Earlier.showResult. destruct (resultValue r); reflexivity.
Qed.

Lemma earlier_selection_changes_on_reopening_witness :
  crtTVIndex (Earlier.drawUI 18 (mkFrame true 1 300 (Some 4) 0 (3 # 4))
                (Earlier.drawUI 18 (mouthFrame 100 1) initialState))
  = randomIndex (3 # 4) 18.
Proof.
  apply (proj1 (earlier_selection_changes_on_reopening 18
                  (mkFrame true 1 300 (Some 4) 0 (3 # 4))
                  (Earlier.drawUI 18 (mouthFrame 100 1) initialState)
                  (mkSpeech false "" 0 0))).
  repeat split; discriminate.
Defined.

(** In the earlier variant there is no re-arm delay: when a speech result
    has closed the gesture, the next tracked frame with the mouth gap over
    2.5 starts the recogniser again at once, however soon it comes. *)
Theorem earlier_restarts_at_once :
  forall (n : Z) (f : Frame) (s : State) (r : Speech),
    resultValue r = true ->
    tracked f -> distanceAbove (distance3_4 f) (5 # 2) = true ->
    starts (Earlier.drawUI n f (Earlier.showResult r s)) = (starts s + 1)%nat
    /\ mouthOpen (Earlier.drawUI n f (Earlier.showResult r s)) = true
    /\ mouthOpenTime (Earlier.drawUI n f (Earlier.showResult r s))
       = nowTime f.
Proof.
  intros n f s r Hv Ht Hd.
  rewrite (earlier_tracked _ _ _ Ht), Hd.
  unfold Earlier.showResult. rewrite Hv. simpl.
  branch; unfold starts; simpl; repeat split; lia.
Qed.

Lemma earlier_restarts_at_once_witness :
  starts (Earlier.drawUI 18 (mouthFrame 1001 4)
            (Earlier.showResult (mkSpeech true "rose" 1000 0) initialState))
  = (starts initialState + 1)%nat.
Proof.
  apply (earlier_restarts_at_once 18 (mouthFrame 1001 4) initialState
           (mkSpeech true "rose" 1000 0)).
  - reflexivity.
  - split; [reflexivity | discriminate].
  - reflexivity.
Defined.

(* ================================================================== *)
(** * The frame loop *)

Import Sketch.

Section FrameLoop.

Variable Raw : Type.
Variable mapKeypoint : Raw -> jsPoint Q.
Variable sqrt : Q -> Q.
Variable atan2Degrees : Q -> Q -> Q.
Variable n : Z.

Lemma getKeypoint_value (fs : list (option (Face Raw))) index faceNumber :
  getKeypoint Raw mapKeypoint fs index faceNumber
  = Ok (match item fs faceNumber with
        | Some fc =>
            match keypoints fc with
            | Some kps =>
                match item kps index with
                | Some raw => mapKeypoint raw
                | None => None
                end
            | None => None
            end
        | None => None
        end).
Proof.
  unfold getKeypoint.
  destruct (List.length fs <=? faceNumber)%nat eqn:E.
  - apply Nat.leb_le in E. apply nth_error_None in E.
    unfold item. now rewrite E.
  - destruct (item fs faceNumber) as [fc|]; simpl; [|reflexivity].
    destruct (keypoints fc) as [kps|]; simpl; [|reflexivity].
    destruct (item kps index); reflexivity.
Qed.

Lemma measureDistance_value (p1 p2 : jsPoint Q) :
  exists d,
    measureDistance Q dsub dadd dmul sqrt p1 p2 = Ok d
    /\ (p1 = None \/ p2 = None -> d = None).
Proof.
  destruct p1 as [a|], p2 as [b|]; simpl; eexists; split;
    try reflexivity; intros [H | H]; congruence.
Qed.

Lemma measureVelocity_value (p1 p2 : jsPoint Q) :
  exists v,
    measureVelocity Q 0 dsub dadd dmul sqrt p1 p2 = Ok v
    /\ (p1 = None \/ p2 = None -> v = mkVelocity 0 0 0).
Proof.
  destruct p1 as [a|], p2 as [b|]; simpl; eexists; split;
    try reflexivity; intros [H | H]; congruence.
Qed.

Lemma measureAngle_value (p1 p2 : jsPoint Q) :
  exists a, measureAngle atan2Degrees p1 p2 = Ok a.
Proof. destruct p1 as [a|], p2 as [b|]; simpl; eexists; reflexivity. Qed.

(** The measurement block never throws; the lip distance and the nose
    velocity it stores are those of the points [getKeypoint] returned. *)
Lemma updateMeasures_value (fs : list (option (Face Raw))) (m : Measures) :
  exists p3 p4 p5 d34 v5 m',
    getKeypoint Raw mapKeypoint fs facePointIndex3 0 = Ok p3
    /\ getKeypoint Raw mapKeypoint fs facePointIndex4 0 = Ok p4
    /\ getKeypoint Raw mapKeypoint fs facePointIndex5 0 = Ok p5
    /\ measureDistance Q dsub dadd dmul sqrt p3 p4 = Ok d34
    /\ measureVelocity Q 0 dsub dadd dmul sqrt p5 (facePointData5 m)
       = Ok v5
    /\ updateMeasures Raw mapKeypoint sqrt atan2Degrees fs m = Ok m'
    /\ distance3_4 m' = d34 /\ velocity5 m' = v5
    /\ facePointData5 m' = p5 /\ facePointData5Prev m' = facePointData5 m.
Proof.
  unfold updateMeasures.
  rewrite !getKeypoint_value. simpl.
  match goal with
  | |- context [measureDistance _ _ _ _ _ ?a ?b] =>
      destruct (measureDistance_value a b) as (d12 & E12 & _)
  end.
  rewrite E12. simpl.
  match goal with
  | |- context [measureAngle _ ?a ?b] =>
      destruct (measureAngle_value a b) as (a12 & A12)
  end.
  rewrite A12. simpl.
  match goal with
  | |- context [bind (measureDistance _ _ _ _ _ ?a ?b)] =>
      destruct (measureDistance_value a b) as (d34 & E34 & _)
  end.
  rewrite E34. simpl.
  match goal with
  | |- context [bind (measureAngle _ ?a ?b)] =>
      destruct (measureAngle_value a b) as (a34 & A34)
  end.
  rewrite A34. simpl.
  match goal with
  | |- context [bind (measureVelocity _ _ _ _ _ _ ?a ?b)] =>
      destruct (measureVelocity_value a b) as (v5 & E5 & _)
  end.
  rewrite E5. simpl.
  do 6 eexists. repeat split; try reflexivity; eassumption.
Qed.

End FrameLoop.

(** [getKeypoint] never throws.  It returns a point only when the face
    of that number exists, has a [keypoints] array and the array holds a
    keypoint at that index, and then it returns what [cam.mapKeypoint]
    makes of that keypoint; in every other case, and always after
    [gotFaces] was called without results, it returns null. *)
Theorem getKeypoint_missing_data :
  forall (Raw : Type) (mapKeypoint : Raw -> jsPoint Q)
         (fs : list (option (Face Raw))) (index faceNumber : nat),
    (exists p,
        getKeypoint Raw mapKeypoint fs index faceNumber = Ok p
        /\ (forall q, p = Some q ->
                      exists fc kps raw,
                        nth_error fs faceNumber = Some (Some fc)
                        /\ keypoints fc = Some kps
                        /\ nth_error kps index = Some (Some raw)
                        /\ mapKeypoint raw = Some q))
    /\ (forall fc kps raw,
           nth_error fs faceNumber = Some (Some fc) ->
           keypoints fc = Some kps ->
           nth_error kps index = Some (Some raw) ->
           getKeypoint Raw mapKeypoint fs index faceNumber
           = Ok (mapKeypoint raw))
    /\ getKeypoint Raw mapKeypoint (gotFaces Raw None) index faceNumber
       = Ok None.
Proof.
  intros Raw mapKeypoint fs index faceNumber. split; [|split].
  - rewrite getKeypoint_value. eexists. split; [reflexivity|].
    intros q Hq. unfold item in Hq.
    destruct (nth_error fs faceNumber) as [[fc|]|] eqn:E1; try discriminate.
    destruct (keypoints fc) as [kps|] eqn:E2; try discriminate.
    destruct (nth_error kps index) as [[raw|]|] eqn:E3; try discriminate.
    exists fc, kps, raw. auto.
  - intros fc kps raw E1 E2 E3. rewrite getKeypoint_value.
    unfold item. now rewrite E1, E2, E3.
  - rewrite getKeypoint_value. unfold item. simpl.
    now destruct faceNumber.
Qed.

Lemma getKeypoint_missing_data_witness :
  getKeypoint (Q * Q) (fun r => Some (mkPoint (fst r) (snd r)))
              [Some (mkFace (Some [None; Some (3, 4)]))] 1 0
  = Ok (Some (mkPoint 3 4)).
Proof.
  apply (proj1 (proj2 (getKeypoint_missing_data (Q * Q)
                         (fun r => Some (mkPoint (fst r) (snd r)))
                         [Some (mkFace (Some [None; Some (3, 4)]))] 1 0))
               (mkFace (Some [None; Some (3, 4)])) [None; Some (3, 4)] (3, 4));
    reflexivity.
Defined.

(** [draw] never throws, whatever the detector delivered: faces that are
    null, faces without keypoints, keypoint arrays that are too short.
    With no face at all it leaves every measurement at its last value and
    changes nothing but the text panel. *)
Theorem draw_never_throws :
  forall (Raw : Type) (mapKeypoint : Raw -> jsPoint Q) (sqrt : Q -> Q)
         (atan2Degrees : Q -> Q -> Q) (n : Z) (c : Clock) (w : World Raw),
    (exists w',
        draw Raw mapKeypoint sqrt atan2Degrees n c w = Ok w'
        /\ faces w' = faces w)
    /\ (faces w = [] ->
        draw Raw mapKeypoint sqrt atan2Degrees n c w
        = Ok (mkWorld []
                (measures w)
                (set_pg (if clockReady c then pgShowFace else pgStarting)
                        (ui w)))).
Proof.
  intros Raw mapKeypoint sqrt atan2Degrees n c w. split.
  - unfold draw. destruct (0 <? List.length (faces w))%nat.
    + destruct (updateMeasures_value Raw mapKeypoint sqrt atan2Degrees
                  (faces w) (measures w))
        as (? & ? & ? & ? & ? & m' & _ & _ & _ & _ & _ & E & _).
      rewrite E. simpl. eexists. split; reflexivity.
    + simpl. eexists. split; reflexivity.
  - intros E. unfold draw, frameOf. rewrite E. simpl.
    unfold drawUI. simpl. destruct (clockReady c); reflexivity.
Qed.

Lemma draw_never_throws_witness :
  draw (Q * Q) (fun r => Some (mkPoint (fst r) (snd r))) (fun x => x)
       (fun dy dx => 0) 18 (mkClock true 700 0)
       (mkWorld [] initialMeasures initialState)
  = Ok (mkWorld [] initialMeasures (set_pg pgShowFace initialState)).
Proof.
  apply (proj2 (draw_never_throws (Q * Q)
                  (fun r => Some (mkPoint (fst r) (snd r))) (fun x => x)
                  (fun dy dx => 0) 18 (mkClock true 700 0)
                  (mkWorld [] initialMeasures initialState))).
  reflexivity.
Defined.

(** A face whose upper or lower lip keypoint is missing counts as a closed
    mouth: [draw] stores null as the lip distance, the recogniser is not
    started on that frame, and with the camera ready the frame stamps
    [mouthCloseTime] like any closed-mouth frame. *)
Theorem missing_lips_count_as_closed :
  forall (Raw : Type) (mapKeypoint : Raw -> jsPoint Q) (sqrt : Q -> Q)
         (atan2Degrees : Q -> Q -> Q) (n : Z) (c : Clock) (w : World Raw),
    faces w <> [] ->
    getKeypoint Raw mapKeypoint (faces w) facePointIndex3 0 = Ok None
    \/ getKeypoint Raw mapKeypoint (faces w) facePointIndex4 0 = Ok None ->
    exists w',
      draw Raw mapKeypoint sqrt atan2Degrees n c w = Ok w'
      /\ distance3_4 (measures w') = None
      /\ starts (ui w') = starts (ui w)
      /\ (clockReady c = true -> mouthCloseTime (ui w') = clockNow c).
Proof.
  intros Raw mapKeypoint sqrt atan2Degrees n c w Hne Hlip.
  unfold draw.
  destruct (faces w) as [|f0 fs] eqn:Ef; [congruence|]. simpl Nat.ltb.
  cbv iota.
  destruct (updateMeasures_value Raw mapKeypoint sqrt atan2Degrees
              (f0 :: fs) (measures w))
    as (p3 & p4 & p5 & d34 & v5 & m' & G3 & G4 & _ & D & _ & E & Ed & _).
  rewrite E. simpl. eexists. split; [reflexivity|]. simpl.
  assert (Hd : d34 = None).
  { destruct (measureDistance_value sqrt p3 p4) as (d & Hd1 & Hd2).
    assert (d = d34) by congruence. subst d. apply Hd2.
    destruct Hlip as [H | H]; [left | right]; congruence. }
  split; [congruence|].
  set (fr := frameOf Raw c (f0 :: fs) m').
  assert (Hfr : distanceAbove (Controller.distance3_4 fr) 3 = false).
  { unfold fr, frameOf. simpl. rewrite Ed, Hd. reflexivity. }
  split.
  - apply no_opening_no_start. intros (_ & _ & H & _). congruence.
  - intros Hready.
    assert (Ht : tracked fr)
      by (unfold tracked, fr, frameOf; simpl; split; [exact Hready | lia]).
    destruct (drawUI_cases n fr (ui w))
      as [((_ & _ & A & _) & _)
         | [(_ & _ & _ & M & _) | (_ & _ & _ & _ & _ & M)]].
    + congruence.
    + exact M.
    + rewrite (M Ht), Hfr. reflexivity.
Qed.

Lemma missing_lips_count_as_closed_witness :
  exists w',
    draw (Q * Q) (fun r => Some (mkPoint (fst r) (snd r))) (fun x => x)
         (fun dy dx => 0) 18 (mkClock true 700 0)
         (mkWorld [Some (mkFace (Some [Some (1, 1)]))]
                  initialMeasures initialState) = Ok w'
    /\ distance3_4 (measures w') = None
    /\ starts (ui w') = starts initialState
    /\ (true = true -> mouthCloseTime (ui w') = 700).
Proof.
  apply (missing_lips_count_as_closed (Q * Q)
           (fun r => Some (mkPoint (fst r) (snd r))) (fun x => x)
           (fun dy dx => 0) 18 (mkClock true 700 0)
           (mkWorld [Some (mkFace (Some [Some (1, 1)]))]
                    initialMeasures initialState)).
  - discriminate.
  - left. reflexivity.
Defined.

Lemma still_nose_no_shift n f s :
  velocity5y f = 0 -> shiftBlock n f s = s.
Proof. intros E. unfold shiftBlock. rewrite E. now rewrite andb_false_r. Qed.

(** On a frame where the nose keypoint is missing, or was missing at the
    previous update, the nose velocity stored by [draw] is the zero
    vector and the selection is not browsed: no shift is stamped. *)
Theorem missing_nose_no_browse :
  forall (Raw : Type) (mapKeypoint : Raw -> jsPoint Q) (sqrt : Q -> Q)
         (atan2Degrees : Q -> Q -> Q) (n : Z) (c : Clock) (w : World Raw),
    faces w <> [] ->
    facePointData5 (measures w) = None
    \/ getKeypoint Raw mapKeypoint (faces w) facePointIndex5 0 = Ok None ->
    exists w',
      draw Raw mapKeypoint sqrt atan2Degrees n c w = Ok w'
      /\ velocity5 (measures w') = mkVelocity 0 0 0
      /\ velocityYTime (ui w') = velocityYTime (ui w)
      /\ (clockReady c = true ->
          crtTVIndex (ui w')
          = crtTVIndex
              (gestureBlock n (frameOf Raw c (faces w) (measures w'))
                            (ui w))).
Proof.
  intros Raw mapKeypoint sqrt atan2Degrees n c w Hne Hnose.
  unfold draw.
  destruct (faces w) as [|f0 fs] eqn:Ef; [congruence|]. simpl Nat.ltb.
  cbv iota.
  destruct (updateMeasures_value Raw mapKeypoint sqrt atan2Degrees
              (f0 :: fs) (measures w))
    as (p3 & p4 & p5 & d34 & v5 & m' & _ & _ & G5 & _ & V & E & _ & Ev & _).
  rewrite E. simpl. eexists. split; [reflexivity|]. simpl.
  assert (Hv : v5 = mkVelocity 0 0 0).
  { destruct (measureVelocity_value sqrt p5 (facePointData5 (measures w)))
      as (v & Hv1 & Hv2).
    assert (v = v5) by congruence. subst v. apply Hv2.
    destruct Hnose as [H | H]; [right; exact H | left; congruence]. }
  split; [congruence|].
  set (fr := frameOf Raw c (f0 :: fs) m').
  assert (Hfr : velocity5y fr = 0)
    by (unfold fr, frameOf; simpl; rewrite Ev, Hv; reflexivity).
  destruct (tracked_dec fr) as [Ht | Hu].
  - rewrite (tracked_drawUI _ _ _ Ht), (still_nose_no_shift _ _ _ Hfr).
    destruct (panelBlock_others fr (gestureBlock n fr (ui w))) as (Pi & Pv & _).
    rewrite Pi, Pv, gestureBlock_velocityYTime. now split.
  - split.
    + unfold drawUI. repeat branch; try reflexivity.
      exfalso. apply Hu. unfold tracked.
      rewrite negb_false_iff in *. split; [assumption|].
      now apply Nat.eqb_neq.
    + intros Hready. exfalso. apply Hu.
      unfold tracked, fr, frameOf. simpl. split; [exact Hready | lia].
Qed.

Lemma missing_nose_no_browse_witness :
  exists w',
    draw (Q * Q) (fun r => Some (mkPoint (fst r) (snd r))) (fun x => x)
         (fun dy dx => 0) 18 (mkClock true 700 0)
         (mkWorld [Some (mkFace (Some [None; None; None; None;
                                        Some (10, 200)]))]
                  initialMeasures initialState) = Ok w'
    /\ velocity5 (measures w') = mkVelocity 0 0 0
    /\ velocityYTime (ui w') = velocityYTime initialState
    /\ (true = true ->
        crtTVIndex (ui w')
        = crtTVIndex
            (gestureBlock 18
               (frameOf (Q * Q) (mkClock true 700 0)
                  [Some (mkFace (Some [None; None; None; None;
                                        Some (10, 200)]))]
                  (measures w'))
               initialState)).
Proof.
  apply (missing_nose_no_browse (Q * Q)
           (fun r => Some (mkPoint (fst r) (snd r))) (fun x => x)
           (fun dy dx => 0) 18 (mkClock true 700 0)
           (mkWorld [Some (mkFace (Some [None; None; None; None;
                                          Some (10, 200)]))]
                    initialMeasures initialState)).
  - discriminate.
  - left. reflexivity.
Defined.

(** [measureAngle] returns null when a point is missing and throws in no
    case; on two points, with [atan2] delivering between -180 and 180
    degrees, the angle it returns lies between 0 and 360, both included:
    a negative angle gets 360 added in double arithmetic, and for a
    negative angle small enough (here -2^-60) that sum is 360 itself.
    The angle is taken from the base point to the end point: straight up
    the y axis of the canvas (towards smaller y) it is 270. *)
Theorem measureAngle_range :
  forall (atan2Degrees : Q -> Q -> Q) (basePoint endPoint : jsPoint Q),
    (forall dy dx, -180 <= atan2Degrees dy dx /\ atan2Degrees dy dx <= 180) ->
    (basePoint = None \/ endPoint = None ->
     measureAngle atan2Degrees basePoint endPoint = Ok None)
    /\ (basePoint <> None -> endPoint <> None ->
        exists angle,
          measureAngle atan2Degrees basePoint endPoint = Ok (Some angle)
          /\ 0 <= angle /\ angle <= 360)
    /\ measureAngle (fun _ _ => -1 # 1152921504606846976)
                    (Some (mkPoint 0 0)) (Some (mkPoint 1 0))
       = Ok (Some 360)
    /\ measureAngle (fun dy dx => if Qle_bool 0 dy then 90 else -90)
                    (Some (mkPoint 0 0)) (Some (mkPoint 1 (-1)))
       = Ok (Some 270).
Proof.
  intros atan2Degrees basePoint endPoint Hatan. split; [|split].
  - intros [-> | ->]; [reflexivity|]. now destruct basePoint.
  - intros Hb He.
    destruct basePoint as [b|]; [|congruence].
    destruct endPoint as [e|]; [|congruence].
    cbv [measureAngle isFalsy orb bind getX getY].
    destruct (Hatan (dsub (py Q e) (py Q b)) (dsub (px Q e) (px Q b)))
      as [Hlo Hhi].
    set (a := atan2Degrees (dsub (py Q e) (py Q b))
                           (dsub (px Q e) (px Q b))) in *.
    destruct (gt 0 a) eqn:G; eexists; split; try reflexivity.
    + apply gt_true in G. split.
      * unfold dadd. apply roundDouble_nonneg. lra.
      * unfold dadd. apply roundDouble_le; [lra | lra | vm_compute; reflexivity].
    + apply gt_false in G. split; lra.
  - split; vm_compute; reflexivity.
Qed.

Lemma measureAngle_range_witness :
  exists angle,
    measureAngle (fun dy dx => if Qle_bool 0 dy then 90 else -90)
                 (Some (mkPoint 0 0)) (Some (mkPoint 1 (-1)))
    = Ok (Some angle)
    /\ 0 <= angle /\ angle <= 360.
Proof.
  refine (proj1 (proj2 (measureAngle_range
                   (fun dy dx => if Qle_bool 0 dy then 90 else -90)
                   (Some (mkPoint 0 0)) (Some (mkPoint 1 (-1))) _)) _ _).
  - intros dy dx. destruct (Qle_bool 0 dy); split; lra.
  - discriminate.
  - discriminate.
Defined.

(* ================================================================== *)
(** * An utterance without words *)

Lemma splitRuns_separators_only b s :
  allChars isSeparator s = true ->
  Forall (fun t => t = EmptyString) (splitRuns isSeparator b s).
Proof.
  revert b. induction s as [|c s IH]; intros b; simpl.
  - intros _. repeat constructor.
  - intros H. apply andb_prop in H as [Hc Hs]. rewrite Hc.
    destruct b; [now apply IH|]. constructor; [reflexivity | now apply IH].
Qed.

Lemma toLowerCase_empty s : toLowerCase s = EmptyString -> s = EmptyString.
Proof. destruct s; [reflexivity | discriminate]. Qed.

(** A speech result that holds no word at all (the empty string, or
    separator characters only) matches no synonym whose words are all
    non-empty, so on a catalogue of such synonyms it selects nothing and
    [foundIndex] is -1. *)
Theorem wordless_utterance_matches_nothing :
  forall (utterance : string) (names : list (list string)),
    allChars isSeparator utterance = true ->
    (forall synonyms nameEntry part,
        In synonyms names -> In nameEntry synonyms ->
        In part (splitSpace nameEntry) -> part <> EmptyString) ->
    search (splitWords utterance) names = None
    /\ foundIndex (splitWords utterance) names = (-1)%Z.
Proof.
  intros utterance names Hsep Hparts.
  assert (E : search (splitWords utterance) names = None).
  { unfold search. apply searchFrom_none. intros syn Hsyn.
    unfold entryMatches. apply not_true_iff_false. intros H.
    apply existsb_exists in H as (nameEntry & Hin & Hfound).
    apply allPartsFrom_iff in Hfound as (ks & Hm & _).
    destruct (splitSpace nameEntry) as [|part parts] eqn:Es;
      [now apply splitSpace_nonempty in Es|].
    destruct (matchesAt_each _ _ _ Hm part (or_introl eq_refl))
      as (w & Hw & Hmatch).
    pose proof (splitRuns_separators_only false utterance Hsep) as Hall.
    rewrite Forall_forall in Hall. specialize (Hall w Hw). subst w.
    unfold partMatches in Hmatch. apply String.eqb_eq in Hmatch.
    simpl in Hmatch. symmetry in Hmatch. apply toLowerCase_empty in Hmatch.
    apply (Hparts syn nameEntry part Hsyn Hin); [|exact Hmatch].
    rewrite Es. now left. }
  split; [exact E|]. unfold foundIndex. now rewrite E.
Qed.

Lemma wordless_utterance_matches_nothing_witness :
  search (splitWords "...?!") [["rose"; "rosa"]; ["water lily"]] = None
  /\ foundIndex (splitWords "...?!") [["rose"; "rosa"]; ["water lily"]]
     = (-1)%Z.
Proof.
  apply (wordless_utterance_matches_nothing "...?!"
           [["rose"; "rosa"]; ["water lily"]]).
  - reflexivity.
  - intros synonyms nameEntry part Hs Hn Hp.
    simpl in Hs.
    destruct Hs as [<- | [<- | []]]; simpl in Hn.
    + destruct Hn as [<- | [<- | []]]; simpl in Hp;
        destruct Hp as [<- | []]; discriminate.
    + destruct Hn as [<- | []]; simpl in Hp;
        destruct Hp as [<- | [<- | []]]; discriminate.
Defined.
